(** * bukind/life: the two-phase Life engine of [main.go]

    A shallow embedding of the board, the neighbour counting of
    [Game.feed], the resolve pass [Game.lifeOn], the tick function
    [Game.Update] and the input handling [Game.processInput], followed by
    the properties of the engine.

    Conventions of the embedding.
    - A Go [byte] is a [Z] in [0, 256); byte arithmetic wraps ([add8],
      [sub8]).  A Go [int] is a [Z]; the only [int] the program does
      arithmetic on besides slice indices is [Speed], whose [++] and [--]
      wrap at 64 bits ([int_wrap]).
    - A slice is a [list]; reading or writing outside its bounds is the
      run-time panic [IndexOutOfRange].
    - A function that can panic returns [res]: [Ok v] when it returns,
      [Panic p] when the process is aborted by a panic.  The panics are
      those of the program and of the length check of [make]; a machine
      that runs out of memory below the limit of that check is not
      modelled.
    - A [for .. range] loop is [rangeLoop]: the loop variables that the
      body mutates are the state threaded through the iterations. *)

From Stdlib Require Import ZArith Lia Bool.
From stdpp Require Import base tactics option list.

Open Scope Z_scope.

(** ** Panics and results *)

Inductive panic : Type :=
| IndexOutOfRange                          (* slice index out of range *)
| MakeLenOutOfRange                        (* makeslice: len out of range *)
| WrongCellFeed (cell : Z)                 (* "wrong cell value %d at feed phase" *)
| WrongCellLifeOn (cell : Z) (j i : Z).    (* "cell value %d is wrong at (%d,%d)" *)

Inductive res (A : Type) : Type :=
| Ok (a : A)
| Panic (p : panic).
Arguments Ok {A} a.
Arguments Panic {A} p.

#[global] Instance res_ret : MRet res := fun A a => Ok a.
#[global] Instance res_bind : MBind res := fun A B f m =>
  match m with
  | Ok a => f a
  | Panic p => Panic p
  end.

(** ** Machine arithmetic *)

Definition add8 (a b : Z) : Z := (a + b) mod 256.
Definition sub8 (a b : Z) : Z := (a - b) mod 256.
Definition int_wrap (z : Z) : Z := (z + 2 ^ 63) mod 2 ^ 64 - 2 ^ 63.

(** ** Slices *)

Definition len {A} (l : list A) : Z := Z.of_nat (length l).

(** [l[i]] *)
Definition index {A} (l : list A) (i : Z) : res A :=
  if i <? 0 then Panic IndexOutOfRange
  else match l !! Z.to_nat i with
       | Some a => Ok a
       | None => Panic IndexOutOfRange
       end.

(** [l[i] = a] *)
Definition store {A} (l : list A) (i : Z) (a : A) : res (list A) :=
  if (i <? 0) || (len l <=? i) then Panic IndexOutOfRange
  else Ok (<[Z.to_nat i := a]> l).

(** The runtime's limit on the size in bytes of one allocation (64-bit
    platforms with 48 address bits), and the sizes in bytes of the two
    element types of the program: a [Cell] is a byte, a [Row] is a slice
    header of three words. *)
Definition maxAlloc : Z := 2 ^ 48.
Definition sizeofCell : Z := 1.
Definition sizeofRow : Z := 24.

(** The length check of [make]: a negative length, or [n] elements of
    [elemSize] bytes above [maxAlloc]. *)
Definition tooLong (elemSize n : Z) : bool :=
  (n <? 0) || (elemSize * n >? maxAlloc).

(** [make([]T, n)] with [T] of [elemSize] bytes: it panics when the
    length check fails, and is [n] copies of the zero value of [T]
    otherwise. *)
Definition make {A} (elemSize : Z) (zero : A) (n : Z) : res (list A) :=
  if tooLong elemSize n then Panic MakeLenOutOfRange
  else Ok (replicate (Z.to_nat n) zero).

(** [make([]T, len(s))] for a slice [s] of [T] that exists: [s] itself
    was allocated with that length, so the length check passes. *)
Definition makeLike {A} (zero : A) (s : list A) : res (list A) :=
  Ok (replicate (length s) zero).

(** ** Loops *)

(** [for j, a := range l { s = body j a s }], the index starting at [j]. *)
Fixpoint rangeLoop {A St} (body : Z → A → St → res St) (j : Z) (l : list A) (s : St)
    : res St :=
  match l with
  | [] => Ok s
  | a :: l' => s' ← body j a s; rangeLoop body (j + 1) l' s'
  end.

(** [for j := lo; j < lo + n; j++ { s = body j s }]. *)
Fixpoint forLoop {St} (body : Z → St → res St) (j : Z) (n : nat) (s : St) : res St :=
  match n with
  | O => Ok s
  | S n' => s' ← body j s; forLoop body (j + 1) n' s'
  end.

(** ** Constants, cells, board *)

Module Const.
Definition Columns : Z := 640.
Definition Rows : Z := 320.
Definition MaxTPS : Z := 60.
End Const.

(** [type Cell byte] and [type Row []Cell]. *)
Abbreviation Cell := Z (only parsing).
Abbreviation Row := (list Z) (only parsing).

Definition CellEmpty : Cell := 0.
Definition CellAlive : Cell := 1.
Definition CellBorn : Cell := 2.
Definition CellDying : Cell := 3.

(** The colour table, one RGBA sample per cell value. *)
Definition Colors : list (Z * Z * Z * Z) :=
  [ (0x34, 0x49, 0x5e, 0xff);
    (0x1e, 0x84, 0x49, 0xff);
    (0x27, 0xae, 0x60, 0xff);
    (0x64, 0x1e, 0x16, 0xff) ].

Record Board : Type := mkBoard { Rows : list Row }.

(** [NewBoard]: every row is made, stored in [rows[i]] and then filled
    through the alias [r]; the model stores the row once it is filled. *)
Definition NewBoard (nColumns nRows : Z) : res Board :=
  rows ← make sizeofRow ([] : Row) nRows;
  rows ← rangeLoop (fun i (_ : Row) (rows : list Row) =>
            r ← make sizeofCell 0 nColumns;
            r ← forLoop (fun j (r : Row) => store r j CellEmpty)
                  0 (Z.to_nat nColumns) r;
            store rows i r) 0 rows rows;
  Ok (mkBoard rows).

(** ** The random source

    [rand.Intn(n)] is the next draw of the generator reduced to [0, n);
    the generator is an arbitrary sequence of draws and the position in
    it.  Every sequence of draws is a generator here, which is more than
    the generators of the library: what is proved for every generator
    holds for the library's.  The only call passes [len(Colors)], which
    is 4, so the panic of [rand.Intn] on [n <= 0] does not arise. *)
Record Rand : Type := mkRand { draws : nat → Z; pos : nat }.

Definition Intn (r : Rand) (n : Z) : Z * Rand :=
  (draws r (pos r) mod n, mkRand (draws r) (S (pos r))).

(** [Cell(x)]: conversion of an [int] to a [byte]. *)
Definition toCell (x : Z) : Cell := x mod 256.

(** [Board.RandomFill].  The row is written through its alias [row] and
    stored back in [rows[i]] when the inner loop is done. *)
Definition RandomFill (b : Board) (rnd : Rand) : res (Board * Rand) :=
  '(rows, rnd) ← rangeLoop (fun i (row : Row) '(rows, rnd) =>
      '(row, rnd) ← rangeLoop (fun j (_ : Cell) '(row, rnd) =>
          let '(x, rnd) := Intn rnd (len Colors) in
          row ← store row j (toCell x);
          Ok (row, rnd)) 0 row (row, rnd);
      rows ← store rows i row;
      Ok (rows, rnd)) 0 (Rows b) (Rows b, rnd);
  Ok (mkBoard rows, rnd).

(** ** The game *)

Record Game : Type := mkGame {
  GBoard : Board;
  FeedPhase : bool;
  Paused : bool;
  Speed : Z
}.

(** The keys that [ebiten.IsKeyPressed] reports during one tick. *)
Record Keys : Type := mkKeys {
  KeySpace : bool;
  KeyLeft : bool;
  KeyRight : bool
}.

Definition noKeys : Keys := mkKeys false false false.

(** [NewGame].  The calls of [ebiten.SetTPS] hand [Speed] to the host
    library and leave the game unchanged; they are not modelled. *)
Definition NewGame (rnd : Rand) (nColumns nRows : Z) : res (Game * Rand) :=
  b ← NewBoard nColumns nRows;
  '(b, rnd) ← RandomFill b rnd;
  Ok (mkGame b false false 10, rnd).

(** [Game.processInput]: the first case of the switch whose key is
    pressed runs. *)
Definition processInput (g : Game) (k : Keys) : Game :=
  if KeySpace k then
    mkGame (GBoard g) (FeedPhase g) (negb (Paused g)) (Speed g)
  else if KeyLeft k then
    let s := int_wrap (Speed g - 1) in
    let s := if s <? 1 then 1 else s in
    mkGame (GBoard g) (FeedPhase g) (Paused g) s
  else if KeyRight k then
    let s := int_wrap (Speed g + 1) in
    let s := if s >? Const.MaxTPS then Const.MaxTPS else s in
    mkGame (GBoard g) (FeedPhase g) (Paused g) s
  else g.

(** *** The mark sub-phase: [Game.feed] *)

(** First loop nest of [feed] (the neighbour counter): for every row the
    sums of three adjacent rows go to [tmp], then the sums of three
    adjacent entries of [tmp], minus the cell itself, go to a fresh
    [crow] that is appended to [countBoard].  [tmp] is allocated once and
    reused for every row. *)
Definition sumRows (rows : list Row) (i1 i2 : Z) (row tmp : Row) : res Row :=
  rangeLoop (fun j (cell : Cell) (tmp : Row) =>
      r1 ← index rows i1;
      c1 ← index r1 j;
      r2 ← index rows i2;
      c2 ← index r2 j;
      let count := add8 (add8 cell c1) c2 in
      store tmp j count) 0 row tmp.

Definition sumCols (row tmp crow : Row) : res Row :=
  rangeLoop (fun j (cnt : Cell) (crow : Row) =>
      let j1 := j - 1 in
      let j2 := j + 1 in
      let j1 := if j1 <? 0 then len tmp - 1 else j1 in
      let j2 := if j2 >=? len tmp then 0 else j2 in
      t1 ← index tmp j1;
      t2 ← index tmp j2;
      c ← index row j;
      store crow j (sub8 (add8 (add8 cnt t1) t2) c)) 0 tmp crow.

Definition neighborCounts (rows : list Row) : res (list Row) :=
  row0 ← index rows 0;
  tmp ← makeLike 0 row0;
  '(_, countBoard) ← rangeLoop (fun i (row : Row) '(tmp, countBoard) =>
      let i1 := i - 1 in
      let i2 := i + 1 in
      let i1 := if i1 <? 0 then len rows - 1 else i1 in
      let i2 := if i2 >=? len rows then 0 else i2 in
      tmp ← sumRows rows i1 i2 row tmp;
      crow ← makeLike 0 row;
      crow ← sumCols row tmp crow;
      Ok (tmp, countBoard ++ [crow])) 0 rows (tmp, ([] : list Row));
  Ok countBoard.

(** Second loop nest of [feed]: the fate of every cell.  Each cell is
    read before it is written and no other cell is written in between, so
    the loop ranges over the rows as they were when the sweep began; the
    row is written through its alias and stored back when it is done. *)
Definition fateRow (countBoard : list Row) (i : Z) (row : Row) : res Row :=
  rangeLoop (fun j (cell : Cell) (row : Row) =>
      crow ← index countBoard i;
      nbrs ← index crow j;
      if cell =? CellEmpty then
        if nbrs =? 3 then store row j CellBorn else Ok row
      else if cell =? CellAlive then
        if (nbrs <? 2) || (nbrs >? 3) then store row j CellDying else Ok row
      else Panic (WrongCellFeed cell)) 0 row row.

Definition sweep (countBoard rows : list Row) : res (list Row) :=
  rangeLoop (fun i (row : Row) (rows : list Row) =>
      row ← fateRow countBoard i row;
      store rows i row) 0 rows rows.

Definition feedRows (rows : list Row) : res (list Row) :=
  countBoard ← neighborCounts rows;
  sweep countBoard rows.

Definition feed (g : Game) : res Game :=
  rows ← feedRows (Rows (GBoard g));
  Ok (mkGame (mkBoard rows) (FeedPhase g) (Paused g) (Speed g)).

(** *** The resolve sub-phase: [Game.lifeOn]

    The state of the loops is the row being rewritten and the two
    counters [empty] and [filled] that end up in the log line.  As in the
    sweep of [feed] each cell is read before it is written, and the row
    is stored back in [rows[i]] when the inner loop is done. *)
Definition lifeOnRow (i : Z) (row : Row) (empty filled : Z)
  : res (Row * Z * Z) :=
  rangeLoop (fun j (cell : Cell) '(row, empty, filled) =>
      if (cell =? CellEmpty) || (cell =? CellDying) then
        row ← store row j CellEmpty;
        Ok (row, empty + 1, filled)
      else if (cell =? CellBorn) || (cell =? CellAlive) then
        row ← store row j CellAlive;
        Ok (row, empty, filled + 1)
      else Panic (WrongCellLifeOn cell j i)) 0 row (row, empty, filled).

Definition lifeOnRows (rows : list Row) : res (list Row * Z * Z) :=
  rangeLoop (fun i (row : Row) '(rows, empty, filled) =>
      '(row, empty, filled) ← lifeOnRow i row empty filled;
      rows ← store rows i row;
      Ok (rows, empty, filled)) 0 rows (rows, 0, 0).

Definition lifeOn (g : Game) : res Game :=
  '(rows, _, _) ← lifeOnRows (Rows (GBoard g));
  Ok (mkGame (mkBoard rows) (FeedPhase g) (Paused g) (Speed g)).

(** *** The tick: [Game.Update] *)
Definition Update (g : Game) (k : Keys) : res Game :=
  let g := processInput g k in
  if Paused g then Ok g
  else
    let fp := FeedPhase g in
    let g := mkGame (GBoard g) (negb fp) (Paused g) (Speed g) in
    if fp then feed g else lifeOn g.

(** A run of the tick loop: one [Update] per element of [ks]; a panic
    ends the run. *)
Fixpoint run (g : Game) (ks : list Keys) : res Game :=
  match ks with
  | [] => Ok g
  | k :: ks' => g' ← Update g k; run g' ks'
  end.

(** ** Reading the board in specifications *)

(** [getZ l j] is [l[j]] for an index in range (and 0 outside). *)
Definition getZ (l : list Z) (j : Z) : Z := default 0 (l !! Z.to_nat j).

Definition cellAt (rows : list Row) (i j : Z) : Cell :=
  getZ (default [] (rows !! Z.to_nat i)) j.

(** All rows have [W] cells. *)
Definition rect (W : nat) (rows : list Row) : Prop :=
  Forall (fun r : Row => length r = W) rows.

(** Every cell is [Empty] or [Alive]. *)
Definition steadyCell (c : Cell) : Prop := c = CellEmpty ∨ c = CellAlive.
Definition steady (rows : list Row) : Prop := Forall (Forall steadyCell) rows.

(** Every cell is one of the four cell values. *)
Definition validCell (c : Cell) : Prop := 0 <= c < 4.
Definition valid (rows : list Row) : Prop := Forall (Forall validCell) rows.

(** ** The loops of [feed] in closed form *)

(** The wrapped indices as [feed] computes them. *)
Definition prevIdx (i n : Z) : Z := if i - 1 <? 0 then n - 1 else i - 1.
Definition nextIdx (i n : Z) : Z := if i + 1 >=? n then 0 else i + 1.

(** What [tmp[j]] holds while row [i] is processed, and what [feed]
    appends as [countBoard[i][j]], both in byte arithmetic. *)
Definition rowSum (rows : list Row) (i j : Z) : Z :=
  add8 (add8 (cellAt rows i j) (cellAt rows (prevIdx i (len rows)) j))
       (cellAt rows (nextIdx i (len rows)) j).

Definition countAt (W : Z) (rows : list Row) (i j : Z) : Z :=
  sub8 (add8 (add8 (rowSum rows i j) (rowSum rows i (prevIdx j W)))
             (rowSum rows i (nextIdx j W)))
       (cellAt rows i j).

(** ** The naive scan of the specification

    These definitions follow the words of the specification, not the
    code: [value] of a cell ([Empty] is 0, [Alive] is 1), the toroidal
    neighbour indices [(row-1+height) mod height] and [(row+1) mod height]
    (the same for columns), and the sum of [value] over the 8 surrounding
    cells. *)
Definition value (c : Cell) : Z := if c =? CellAlive then 1 else 0.

Definition above (i H : Z) : Z := (i - 1 + H) mod H.
Definition below (i H : Z) : Z := (i + 1) mod H.

Definition specNaiveCount (H W : Z) (rows : list Row) (i j : Z) : Z :=
  let u := above i H in
  let d := below i H in
  let l := above j W in
  let r := below j W in
  value (cellAt rows u l) + value (cellAt rows u j) + value (cellAt rows u r)
  + value (cellAt rows i l) + value (cellAt rows i r)
  + value (cellAt rows d l) + value (cellAt rows d j) + value (cellAt rows d r).

(** ** The two switches in closed form *)

(** What the switch of the sweep leaves in a cell that is [Empty] or
    [Alive]. *)
Definition fate (cell nbrs : Z) : Cell :=
  if cell =? CellEmpty then
    if nbrs =? 3 then CellBorn else cell
  else if cell =? CellAlive then
    if (nbrs <? 2) || (nbrs >? 3) then CellDying else cell
  else cell.

#[global] Instance steadyCell_dec (c : Cell) : Decision (steadyCell c).
Proof. unfold steadyCell. apply _. Defined.

#[global] Instance validCell_dec (c : Cell) : Decision (validCell c).
Proof. unfold validCell. apply _. Defined.

#[global] Instance rect_dec (W : nat) (rows : list Row) : Decision (rect W rows).
Proof. unfold rect. apply _. Defined.

#[global] Instance steady_dec (rows : list Row) : Decision (steady rows).
Proof. unfold steady. apply _. Defined.

(** The panic of the sweep: the message carries a cell of the board that
    is neither [Empty] nor [Alive]. *)
Definition wrongCellPanic (rows : list Row) (p : panic) : Prop :=
  ∃ c row, p = WrongCellFeed c ∧ ¬ steadyCell c ∧ c ∈ row ∧ row ∈ rows.

Definition transientRow (row : Row) : Prop := Exists (fun c => ¬ steadyCell c) row.

(** The two transitional cell values. *)
Definition transitional (c : Cell) : Prop := c = CellBorn ∨ c = CellDying.

(** What the switch of [lifeOn] leaves in a cell that holds one of the
    four cell values. *)
Definition resolve (c : Cell) : Cell :=
  if (c =? CellEmpty) || (c =? CellDying) then CellEmpty else CellAlive.

Definition resolveRow (row : Row) : Row := resolve <$> row.
Definition resolveRows (rows : list Row) : list Row := resolveRow <$> rows.

Definition emptyRows (nColumns nRows : Z) : list Row :=
  replicate (Z.to_nat nRows) (replicate (Z.to_nat nColumns) CellEmpty).

(** ** Ticks and sub-phases *)

Inductive SubPhase : Type := Mark | Resolve.

(** The sub-phase that [FeedPhase] announces: [Update] calls [feed] when
    the flag is set and [lifeOn] when it is not. *)
Definition phaseOf (fp : bool) : SubPhase := if fp then Mark else Resolve.

Definition otherPhase (p : SubPhase) : SubPhase :=
  match p with Mark => Resolve | Resolve => Mark end.

(** The sub-phase that [Update g k] runs: none when the game is paused
    once the input is processed. *)
Definition tickPhase (g : Game) (k : Keys) : option SubPhase :=
  let g := processInput g k in
  if Paused g then None else Some (phaseOf (FeedPhase g)).

(** The sub-phases that a run of ticks executes, in order; paused ticks
    execute none and a panic ends the run. *)
Fixpoint phases (g : Game) (ks : list Keys) : list SubPhase :=
  match ks with
  | [] => []
  | k :: ks' =>
      option_list (tickPhase g k) ++
      match Update g k with
      | Ok g' => phases g' ks'
      | Panic _ => []
      end
  end.

(** [l] alternates between the two sub-phases, beginning with [start]. *)
Fixpoint alternates (start : SubPhase) (l : list SubPhase) : Prop :=
  match l with
  | [] => True
  | p :: l' => p = start ∧ alternates (otherPhase start) l'
  end.

(** The invariant of the tick loop on a board of [H] rows of [W] cells:
    before a mark sub-phase every cell is [Empty] or [Alive], before a
    resolve sub-phase every cell is one of the four cell values. *)
Definition tickInv (W H : nat) (g : Game) : Prop :=
  let rows := Rows (GBoard g) in
  length rows = H ∧ rect W rows ∧
  if FeedPhase g then steady rows else valid rows.

(** ** Boards and games of the examples *)

Definition corner3 : list Row := [ [1; 0; 0]; [0; 0; 0]; [0; 0; 0] ].

Definition cornerGame : Game := mkGame (mkBoard corner3) true false 10.

Definition bornGame : Game := mkGame (mkBoard [ [2] ]) false false 10.
Definition twos : Rand := mkRand (fun _ => 2) 0.

Definition slowest : Game := mkGame (mkBoard []) false false 1.
Definition fastest : Game := mkGame (mkBoard []) false false 60.
Definition pausedBornGame : Game := mkGame (mkBoard [ [2] ]) false true 10.

Definition blinker : list Row :=
  [ [0; 0; 0; 0; 0];
    [0; 0; 0; 0; 0];
    [0; 1; 1; 1; 0];
    [0; 0; 0; 0; 0];
    [0; 0; 0; 0; 0] ].

(** The counts of live neighbours around the horizontal blinker. *)
Definition blinkerCounts : list Row :=
  [ [0; 0; 0; 0; 0];
    [1; 2; 3; 2; 1];
    [1; 1; 2; 1; 1];
    [1; 2; 3; 2; 1];
    [0; 0; 0; 0; 0] ].

(** After the mark sub-phase: the two ends are [Dying], the centre is
    still [Alive], the cells above and below the centre are [Born]. *)
Definition blinkerMarked : list Row :=
  [ [0; 0; 0; 0; 0];
    [0; 0; CellBorn; 0; 0];
    [0; CellDying; CellAlive; CellDying; 0];
    [0; 0; CellBorn; 0; 0];
    [0; 0; 0; 0; 0] ].

(** After the resolve sub-phase: the vertical blinker. *)
Definition blinkerVertical : list Row :=
  [ [0; 0; 0; 0; 0];
    [0; 0; 1; 0; 0];
    [0; 0; 1; 0; 0];
    [0; 0; 1; 0; 0];
    [0; 0; 0; 0; 0] ].

Definition gameOf (rows : list Row) (fp : bool) : Game :=
  mkGame (mkBoard rows) fp false 10.

(** ** Rendering and sizing: [Game.Draw] and [Game.Layout]

    The screen belongs to the host library.  The model of [Draw] records
    the calls [screen.Set(x, y, clr)] in the order in which they are
    made, after the calls already recorded in [screen]. *)
Abbreviation Color := (Z * Z * Z * Z)%type (only parsing).
Abbreviation SetCall := (Z * Z * (Z * Z * Z * Z))%type (only parsing).

Definition Draw (g : Game) (screen : list SetCall) : res (list SetCall) :=
  rangeLoop (fun y (row : Row) (screen : list SetCall) =>
      rangeLoop (fun x (cell : Cell) (screen : list SetCall) =>
          clr ← index Colors cell;
          Ok (screen ++ [(x, y, clr)])) 0 row screen)
    0 (Rows (GBoard g)) screen.

(** [Game.Layout]; the outside size [oW], [oH] is not used. *)
Definition Layout (g : Game) (oW oH : Z) : res (Z * Z) :=
  row0 ← index (Rows (GBoard g)) 0;
  Ok (len row0, len (Rows (GBoard g))).

(** The colour of a cell value, and the calls that drawing a board makes:
    row by row, one call per cell, [x] the column and [y] the row. *)
Definition colorOf (c : Cell) : Color := default (0, 0, 0, 0) (Colors !! Z.to_nat c).

Definition drawnRow (y : nat) (row : Row) : list SetCall :=
  imap (fun x c => (Z.of_nat x, Z.of_nat y, colorOf c)) row.

Definition drawn (rows : list Row) : list SetCall := concat (imap drawnRow rows).

(** The number of cells of a board. *)
Definition cellCount (rows : list Row) : nat := length (concat rows).

(** ** One generation of Life

    The classic rule: a live cell with 2 or 3 live neighbours lives on, an
    empty cell with exactly 3 live neighbours comes alive, every other
    cell is empty in the next generation.  The neighbours are the 8 cells
    of the naive toroidal scan. *)
Definition lifeNext (c : Cell) (n : Z) : Cell :=
  if c =? CellAlive then
    if (n =? 2) || (n =? 3) then CellAlive else CellEmpty
  else
    if n =? 3 then CellAlive else CellEmpty.

Definition lifeStep (rows : list Row) : list Row :=
  imap (fun i (row : Row) =>
      imap (fun j (c : Cell) =>
          lifeNext c (specNaiveCount (len rows) (len row) rows
                        (Z.of_nat i) (Z.of_nat j))) row) rows.

(** The board before a mark sub-phase, read back from the marked board:
    a [Born] cell was [Empty], a [Dying] cell was [Alive]. *)
Definition unmark (c : Cell) : Cell :=
  if c =? CellBorn then CellEmpty
  else if c =? CellDying then CellAlive
  else c.

(** The number of cells of a row that the resolve pass counts as empty
    and as filled. *)
Definition emptyIn (row : Row) : Z :=
  len (filter (fun c => c = CellEmpty ∨ c = CellDying) row).
Definition filledIn (row : Row) : Z :=
  len (filter (fun c => c = CellBorn ∨ c = CellAlive) row).

(** The panic of the resolve pass: the message carries the value of a
    cell of the board that is none of the four cell values, then its
    column [j] and its row [i]. *)
Definition lifeOnPanic (rows : list Row) (p : panic) : Prop :=
  ∃ c (j i : nat) row,
    p = WrongCellLifeOn c (Z.of_nat j) (Z.of_nat i) ∧
    rows !! i = Some row ∧ row !! j = Some c ∧ ¬ validCell c.

(** The cell that [RandomFill] writes with draw number [n] of the
    generator. *)
Definition drawnCell (draws : nat → Z) (n : nat) : Cell := draws n mod 4.

(** ** Basic facts about results, slices and loops *)

Lemma bind_Ok {A B} (f : A → res B) (a : A) : (Ok a ≫= f) = f a.
Proof. reflexivity. Qed.

Lemma bind_Ok_inv {A B} (f : A → res B) (m : res A) (b : B) :
  (m ≫= f) = Ok b → ∃ a, m = Ok a ∧ f a = Ok b.
Proof. destruct m as [a|p]; [eauto | discriminate]. Qed.

Lemma index_lookup {A} (l : list A) (k : nat) (a : A) :
  l !! k = Some a → index l (Z.of_nat k) = Ok a.
Proof.
  intros Hk. unfold index.
  destruct (Z.ltb_spec (Z.of_nat k) 0) as [Hlt|_]; [lia|].
  by rewrite Nat2Z.id, Hk.
Qed.

Lemma store_insert {A} (l : list A) (k : nat) (a : A) :
  (k < length l)%nat → store l (Z.of_nat k) a = Ok (<[k := a]> l).
Proof.
  intros Hk. unfold store, len.
  destruct (Z.ltb_spec (Z.of_nat k) 0); [lia|].
  destruct (Z.leb_spec (Z.of_nat (length l)) (Z.of_nat k)); [lia|].
  by rewrite Nat2Z.id.
Qed.

Lemma tooLong_false (elemSize n : Z) :
  tooLong elemSize n = false ↔ 0 <= n ∧ elemSize * n <= maxAlloc.
Proof.
  unfold tooLong. rewrite orb_false_iff, Z.ltb_ge, Z.gtb_ltb, Z.ltb_ge. done.
Qed.

Lemma make_refused {A} (elemSize : Z) (zero : A) (n : Z) :
  tooLong elemSize n = true → make elemSize zero n = Panic MakeLenOutOfRange.
Proof. intros Hn. unfold make. by rewrite Hn. Qed.

Lemma make_granted {A} (elemSize : Z) (zero : A) (n : Z) :
  tooLong elemSize n = false →
  make elemSize zero n = Ok (replicate (Z.to_nat n) zero).
Proof. intros Hn. unfold make. by rewrite Hn. Qed.

Lemma getZ_lookup (l : list Z) (k : nat) (a : Z) :
  l !! k = Some a → getZ l (Z.of_nat k) = a.
Proof. intros Hk. unfold getZ. by rewrite Nat2Z.id, Hk. Qed.

Lemma cellAt_lookup (rows : list Row) (i : nat) (row : Row) (j : Z) :
  rows !! i = Some row → cellAt rows (Z.of_nat i) j = getZ row j.
Proof. intros Hi. unfold cellAt. by rewrite Nat2Z.id, Hi. Qed.

Lemma rect_lookup (W : nat) (rows : list Row) (i : nat) (row : Row) :
  rect W rows → rows !! i = Some row → length row = W.
Proof. intros Hr Hi. exact (proj1 (Forall_lookup _ _) Hr i row Hi). Qed.

(** The loop rule: an invariant [I k s] that holds before iteration [k]
    and is kept by every iteration holds when the loop ends, and the loop
    does not panic. *)
Lemma rangeLoop_inv {A St} (body : Z → A → St → res St) (I : nat → St → Prop)
  (l : list A) (j0 : Z) (s : St) :
  I O s →
  (∀ (k : nat) a s, l !! k = Some a → I k s →
     ∃ s', body (j0 + Z.of_nat k) a s = Ok s' ∧ I (S k) s') →
  ∃ s', rangeLoop body j0 l s = Ok s' ∧ I (length l) s'.
Proof.
  revert I j0 s. induction l as [|a l IH]; intros I j0 s H0 Hstep.
  - exists s. by split.
  - destruct (Hstep O a s eq_refl H0) as (s1 & Hb & H1).
    rewrite Z.add_0_r in Hb. cbn [rangeLoop]. rewrite Hb, bind_Ok.
    destruct (IH (fun k => I (S k)) (j0 + 1) s1 H1) as (s2 & Hl & H2).
    + intros k x t Hk Ht.
      destruct (Hstep (S k) x t Hk Ht) as (t' & Hb' & Ht').
      exists t'. split; [|done].
      rewrite <- Hb'. f_equal. lia.
    + exists s2. by split.
Qed.

(** The same for the counting loop. *)
Lemma forLoop_inv {St} (body : Z → St → res St) (I : nat → St → Prop)
  (n : nat) (j0 : Z) (s : St) :
  I O s →
  (∀ (k : nat) s, (k < n)%nat → I k s →
     ∃ s', body (j0 + Z.of_nat k) s = Ok s' ∧ I (S k) s') →
  ∃ s', forLoop body j0 n s = Ok s' ∧ I n s'.
Proof.
  revert I j0 s. induction n as [|n IH]; intros I j0 s H0 Hstep.
  - exists s. by split.
  - destruct (Hstep O s ltac:(lia) H0) as (s1 & Hb & H1).
    rewrite Z.add_0_r in Hb. cbn [forLoop]. rewrite Hb, bind_Ok.
    destruct (IH (fun k => I (S k)) (j0 + 1) s1 H1) as (s2 & Hl & H2).
    + intros k t Hk Ht.
      destruct (Hstep (S k) t ltac:(lia) Ht) as (t' & Hb' & Ht').
      exists t'. split; [|done].
      rewrite <- Hb'. f_equal. lia.
    + exists s2. by split.
Qed.

(** A loop whose body panics on every bad element panics as soon as the
    slice holds one. *)
Lemma rangeLoop_panics {A St} (body : Z → A → St → res St) (bad : A → Prop)
  (l : list A) :
  (∀ j a s, bad a → ∃ p, body j a s = Panic p) →
  Exists bad l →
  ∀ j0 s, ∃ p, rangeLoop body j0 l s = Panic p.
Proof.
  intros Hbad Hex. induction Hex as [a l Ha | a l _ IH]; intros j0 s.
  - destruct (Hbad j0 a s Ha) as [p Hp]. exists p. cbn. by rewrite Hp.
  - cbn. destruct (body j0 a s) as [s1|p]; [|by exists p].
    rewrite bind_Ok. apply IH.
Qed.

(** ** The neighbour counter in closed form *)

Lemma prevIdx_range (i n : Z) : 0 <= i < n → 0 <= prevIdx i n < n.
Proof. unfold prevIdx. destruct (Z.ltb_spec (i - 1) 0); lia. Qed.

Lemma nextIdx_range (i n : Z) : 0 <= i < n → 0 <= nextIdx i n < n.
Proof.
  unfold nextIdx. rewrite Z.geb_leb. destruct (Z.leb_spec n (i + 1)); lia.
Qed.

Lemma index_in_range {A} (l : list A) (i : Z) :
  0 <= i < len l → ∃ a, index l i = Ok a ∧ l !! Z.to_nat i = Some a.
Proof.
  intros Hi. unfold len in Hi.
  destruct (lookup_lt_is_Some_2 l (Z.to_nat i) ltac:(lia)) as [a Ha].
  exists a. split; [|done].
  rewrite <- (Z2Nat.id i) by lia. by apply index_lookup.
Qed.

Lemma index_getZ (l : list Z) (i : Z) :
  0 <= i < len l → index l i = Ok (getZ l i).
Proof.
  intros Hi. destruct (index_in_range l i Hi) as (a & -> & Ha).
  unfold getZ. by rewrite Ha.
Qed.

Lemma index_row (W : nat) (rows : list Row) (i : Z) :
  rect W rows → 0 <= i < len rows →
  ∃ r, index rows i = Ok r ∧ length r = W ∧ ∀ j, getZ r j = cellAt rows i j.
Proof.
  intros Hr Hi. destruct (index_in_range rows i Hi) as (r & Hix & Hl).
  exists r. split; [done|]. split; [by eapply rect_lookup|].
  intros j. unfold cellAt. by rewrite Hl.
Qed.

Lemma sumRows_spec (W : nat) (rows : list Row) (i i1 i2 : Z) (row tmp : Row) :
  rect W rows →
  rows !! Z.to_nat i = Some row → 0 <= i →
  0 <= i1 < len rows → 0 <= i2 < len rows →
  length tmp = W →
  ∃ tmp', sumRows rows i1 i2 row tmp = Ok tmp' ∧ length tmp' = W ∧
    ∀ j : nat, (j < W)%nat →
      tmp' !! j = Some (add8 (add8 (cellAt rows i (Z.of_nat j))
                                   (cellAt rows i1 (Z.of_nat j)))
                             (cellAt rows i2 (Z.of_nat j))).
Proof.
  intros Hr Hrow Hi Hi1 Hi2 Htmp.
  pose proof (rect_lookup _ _ _ _ Hr Hrow) as Hlen.
  destruct (index_row W rows i1 Hr Hi1) as (r1 & Hx1 & Hl1 & Hc1).
  destruct (index_row W rows i2 Hr Hi2) as (r2 & Hx2 & Hl2 & Hc2).
  unfold sumRows.
  destruct (rangeLoop_inv
    (fun j (cell : Cell) (tmp : Row) =>
      r1 ← index rows i1; c1 ← index r1 j;
      r2 ← index rows i2; c2 ← index r2 j;
      let count := add8 (add8 cell c1) c2 in store tmp j count)
    (fun k (t : Row) => length t = W ∧
       ∀ j : nat, (j < k)%nat →
         t !! j = Some (add8 (add8 (cellAt rows i (Z.of_nat j))
                                   (cellAt rows i1 (Z.of_nat j)))
                             (cellAt rows i2 (Z.of_nat j))))
    row 0 tmp) as (tmp' & Hloop & Hlen' & Hall).
  - split; [done|]. intros j Hj. lia.
  - intros k a t Hk [Ht Hprev].
    pose proof (lookup_lt_Some _ _ _ Hk) as Hkl.
    rewrite Z.add_0_l, Hx1, bind_Ok.
    rewrite (index_getZ r1) by (unfold len; lia). rewrite bind_Ok, Hx2, bind_Ok.
    rewrite (index_getZ r2) by (unfold len; lia). rewrite bind_Ok. cbv zeta.
    rewrite store_insert by lia.
    eexists. split; [done|]. split; [by rewrite length_insert|].
    intros j Hj. destruct (decide (j = k)) as [->|Hne].
    + rewrite list_lookup_insert_eq by lia.
      rewrite Hc1, Hc2. do 4 f_equal.
      unfold cellAt. rewrite Hrow. symmetry. by apply getZ_lookup.
    + rewrite list_lookup_insert_ne by done. apply Hprev. lia.
  - exists tmp'. split; [done|]. split; [done|].
    intros j Hj. apply Hall. lia.
Qed.

Lemma sumCols_spec (W : nat) (row tmp crow : Row) :
  length row = W → length tmp = W → length crow = W →
  ∃ crow', sumCols row tmp crow = Ok crow' ∧ length crow' = W ∧
    ∀ j : nat, (j < W)%nat →
      crow' !! j =
        Some (sub8 (add8 (add8 (getZ tmp (Z.of_nat j))
                               (getZ tmp (prevIdx (Z.of_nat j) (Z.of_nat W))))
                         (getZ tmp (nextIdx (Z.of_nat j) (Z.of_nat W))))
                   (getZ row (Z.of_nat j))).
Proof.
  intros Hrow Htmp Hcrow. unfold sumCols.
  destruct (rangeLoop_inv
    (fun j (cnt : Cell) (crow : Row) =>
      let j1 := j - 1 in
      let j2 := j + 1 in
      let j1 := if j1 <? 0 then len tmp - 1 else j1 in
      let j2 := if j2 >=? len tmp then 0 else j2 in
      t1 ← index tmp j1; t2 ← index tmp j2; c ← index row j;
      store crow j (sub8 (add8 (add8 cnt t1) t2) c))
    (fun k (c : Row) => length c = W ∧
       ∀ j : nat, (j < k)%nat →
         c !! j =
         Some (sub8 (add8 (add8 (getZ tmp (Z.of_nat j))
                                (getZ tmp (prevIdx (Z.of_nat j) (Z.of_nat W))))
                          (getZ tmp (nextIdx (Z.of_nat j) (Z.of_nat W))))
                    (getZ row (Z.of_nat j))))
    tmp 0 crow) as (crow' & Hloop & Hlen' & Hall).
  - split; [done|]. intros j Hj. lia.
  - intros k a c Hk [Hc Hprev].
    pose proof (lookup_lt_Some _ _ _ Hk) as Hkl.
    rewrite Z.add_0_l. cbv zeta.
    assert (Hw : len tmp = Z.of_nat W) by (unfold len; by rewrite Htmp).
    fold (prevIdx (Z.of_nat k) (len tmp)). fold (nextIdx (Z.of_nat k) (len tmp)).
    rewrite Hw.
    pose proof (prevIdx_range (Z.of_nat k) (Z.of_nat W) ltac:(lia)) as Hp.
    pose proof (nextIdx_range (Z.of_nat k) (Z.of_nat W) ltac:(lia)) as Hn.
    rewrite (index_getZ tmp (prevIdx _ _)) by lia. rewrite bind_Ok.
    rewrite (index_getZ tmp (nextIdx _ _)) by lia. rewrite bind_Ok.
    rewrite (index_getZ row) by (unfold len; lia). rewrite bind_Ok.
    rewrite store_insert by lia.
    eexists. split; [done|]. split; [by rewrite length_insert|].
    intros j Hj. destruct (decide (j = k)) as [->|Hne].
    + rewrite list_lookup_insert_eq by lia.
      by rewrite (getZ_lookup _ _ _ Hk).
    + rewrite list_lookup_insert_ne by done. apply Hprev. lia.
  - exists crow'. split; [done|]. split; [done|].
    intros j Hj. apply Hall. lia.
Qed.

(** Apply the loop rule with invariant [I] to the loop in the goal. *)
Ltac loop_inv I :=
  match goal with
  | |- context [rangeLoop ?b ?j ?l ?s] =>
      cut (∃ s', rangeLoop b j l s = Ok s' ∧ I (length l) s');
      [ | apply (rangeLoop_inv b I l j s) ]
  end.

Lemma getZ_of_lookup (l : list Z) (f : Z → Z) (W : nat) (z : Z) :
  (∀ j : nat, (j < W)%nat → l !! j = Some (f (Z.of_nat j))) →
  0 <= z < Z.of_nat W → getZ l z = f z.
Proof.
  intros Hl Hz. rewrite <- (Z2Nat.id z) by lia.
  rewrite (getZ_lookup l (Z.to_nat z) (f (Z.of_nat (Z.to_nat z)))); [done|].
  apply Hl. lia.
Qed.

(** On a rectangular board with at least one row the counter returns a
    board of the same shape that holds [countAt] everywhere; the cells may
    be any bytes. *)
Lemma neighborCounts_spec (W : nat) (rows : list Row) :
  rect W rows → (0 < length rows)%nat →
  ∃ cb, neighborCounts rows = Ok cb ∧ length cb = length rows ∧ rect W cb ∧
    ∀ i j : nat, (i < length rows)%nat → (j < W)%nat →
      cellAt cb (Z.of_nat i) (Z.of_nat j)
      = countAt (Z.of_nat W) rows (Z.of_nat i) (Z.of_nat j).
Proof.
  intros Hr Hpos. unfold neighborCounts.
  destruct (index_row W rows 0 Hr ltac:(unfold len; lia)) as (r0 & -> & Hl0 & _).
  rewrite bind_Ok. unfold makeLike. rewrite Hl0, bind_Ok.
  loop_inv (fun (k : nat) (s : Row * list Row) =>
    length s.1 = W ∧ length s.2 = k ∧
    ∀ m : nat, (m < k)%nat →
      ∃ crow, s.2 !! m = Some crow ∧ length crow = W ∧
        ∀ j : nat, (j < W)%nat →
          crow !! j = Some (countAt (Z.of_nat W) rows (Z.of_nat m) (Z.of_nat j))).
  - intros ([tmp cb] & -> & Htmp & Hcb & Hall). cbn in Htmp, Hcb, Hall.
    rewrite bind_Ok. exists cb. split; [done|]. split; [done|]. split.
    + apply Forall_lookup. intros m crow Hm.
      destruct (Hall m) as (crow' & Hm' & Hlen & _).
      { apply lookup_lt_Some in Hm. lia. }
      congruence.
    + intros i j Hi Hj. destruct (Hall i Hi) as (crow & Hm & _ & Hc).
      rewrite (cellAt_lookup _ _ _ _ Hm). apply getZ_lookup. by apply Hc.
  - cbn. split; [by rewrite length_replicate|]. split; [done|].
    intros m Hm. lia.
  - intros k row [tmp cb] Hk (Htmp & Hcb & Hall). cbn in Htmp, Hcb, Hall.
    pose proof (lookup_lt_Some _ _ _ Hk) as Hkl.
    pose proof (rect_lookup _ _ _ _ Hr Hk) as Hlen.
    rewrite Z.add_0_l. cbv zeta.
    fold (prevIdx (Z.of_nat k) (len rows)). fold (nextIdx (Z.of_nat k) (len rows)).
    pose proof (prevIdx_range (Z.of_nat k) (len rows) ltac:(unfold len; lia)) as Hp.
    pose proof (nextIdx_range (Z.of_nat k) (len rows) ltac:(unfold len; lia)) as Hn.
    destruct (sumRows_spec W rows (Z.of_nat k) _ _ row tmp Hr
                ltac:(by rewrite Nat2Z.id) ltac:(lia) Hp Hn Htmp)
      as (tmp' & -> & Htmp' & Hsum).
    rewrite bind_Ok. unfold makeLike. rewrite Hlen, bind_Ok.
    destruct (sumCols_spec W row tmp' (replicate W 0) Hlen Htmp'
                ltac:(by rewrite length_replicate))
      as (crow & -> & Hcrow & Hcol).
    rewrite bind_Ok. eexists. split; [done|]. cbn.
    split; [done|]. split; [rewrite length_app; cbn; lia|].
    intros m Hm. destruct (decide (m = k)) as [->|Hne].
    + exists crow. split.
      { rewrite lookup_app_r by lia. by rewrite Hcb, Nat.sub_diag. }
      split; [done|]. intros j Hj. rewrite (Hcol j Hj). f_equal.
      unfold countAt.
      pose proof (prevIdx_range (Z.of_nat j) (Z.of_nat W) ltac:(lia)) as Hpj.
      pose proof (nextIdx_range (Z.of_nat j) (Z.of_nat W) ltac:(lia)) as Hnj.
      assert (Hg : ∀ z, 0 <= z < Z.of_nat W →
                getZ tmp' z = rowSum rows (Z.of_nat k) z).
      { intros z Hz.
        exact (getZ_of_lookup tmp' (fun z => rowSum rows (Z.of_nat k) z)
                 W z Hsum Hz). }
      rewrite !Hg by lia.
      by rewrite (cellAt_lookup _ _ _ _ Hk).
    + destruct (Hall m ltac:(lia)) as (crow' & Hm' & Hrest).
      exists crow'. split; [|done]. by rewrite lookup_app_l by lia.
Qed.

Lemma prevIdx_above (i n : Z) : 0 <= i < n → prevIdx i n = above i n.
Proof.
  intros Hi. unfold prevIdx, above.
  destruct (Z.ltb_spec (i - 1) 0).
  - replace (i - 1 + n) with (n - 1) by lia. rewrite Z.mod_small; lia.
  - replace (i - 1 + n) with (i - 1 + 1 * n) by lia.
    rewrite Z.mod_add by lia. rewrite Z.mod_small; lia.
Qed.

Lemma nextIdx_below (i n : Z) : 0 <= i < n → nextIdx i n = below i n.
Proof.
  intros Hi. unfold nextIdx, below. rewrite Z.geb_leb.
  destruct (Z.leb_spec n (i + 1)).
  - replace (i + 1) with n by lia. rewrite Z.mod_same; lia.
  - rewrite Z.mod_small; lia.
Qed.

Lemma steady_cellAt (rows : list Row) (i j : Z) :
  steady rows → steadyCell (cellAt rows i j).
Proof.
  intros Hs. unfold cellAt, getZ.
  destruct (rows !! Z.to_nat i) as [row|] eqn:Hi; [|by left].
  cbn. destruct (row !! Z.to_nat j) as [c|] eqn:Hj; [|by left].
  cbn. pose proof (proj1 (Forall_lookup _ _) Hs _ _ Hi) as Hrow.
  exact (proj1 (Forall_lookup _ _) Hrow _ _ Hj).
Qed.

Lemma value_steady (c : Cell) : steadyCell c → value c = c.
Proof. by intros [-> | ->]. Qed.

(** Nine cells that are 0 or 1: the three byte sums of three, added and
    with the centre taken away, are the plain sum of the other eight. *)
Lemma separable_sum_steady (c u d cl ul dl cr ur dr : Z) :
  steadyCell c → steadyCell u → steadyCell d →
  steadyCell cl → steadyCell ul → steadyCell dl →
  steadyCell cr → steadyCell ur → steadyCell dr →
  sub8 (add8 (add8 (add8 (add8 c u) d) (add8 (add8 cl ul) dl))
             (add8 (add8 cr ur) dr)) c
  = ul + u + ur + cl + cr + dl + d + dr.
Proof.
  intros [-> | ->] [-> | ->] [-> | ->] [-> | ->] [-> | ->] [-> | ->]
    [-> | ->] [-> | ->] [-> | ->]; reflexivity.
Qed.

Lemma countAt_naive (H W : Z) (rows : list Row) (i j : Z) :
  steady rows → 0 <= i < H → 0 <= j < W → len rows = H →
  countAt W rows i j = specNaiveCount H W rows i j.
Proof.
  intros Hs Hi Hj HH. unfold countAt, rowSum, specNaiveCount. cbv zeta.
  rewrite HH, !(prevIdx_above i H Hi), !(nextIdx_below i H Hi),
    (prevIdx_above j W Hj), (nextIdx_below j W Hj).
  rewrite !value_steady by (by apply steady_cellAt).
  apply separable_sum_steady; by apply steady_cellAt.
Qed.

(** ** The sweep of [feed] in closed form *)

(** The loop rule for a panic: when every iteration on a good element
    keeps the invariant or panics within [P], and every iteration on a
    bad element panics within [P], a slice with a bad element makes the
    loop panic within [P]. *)
Lemma rangeLoop_panic_inv {A St} (body : Z → A → St → res St)
  (I : nat → St → Prop) (P : panic → Prop) (bad : A → Prop)
  (l : list A) (j0 : Z) (s : St) :
  I O s →
  (∀ (k : nat) a s, l !! k = Some a → I k s →
     (¬ bad a ∧ ∃ s', body (j0 + Z.of_nat k) a s = Ok s' ∧ I (S k) s')
     ∨ (∃ p, body (j0 + Z.of_nat k) a s = Panic p ∧ P p)) →
  Exists bad l →
  ∃ p, rangeLoop body j0 l s = Panic p ∧ P p.
Proof.
  intros H0 Hstep Hex. revert I j0 s H0 Hstep.
  induction l as [|a l IH]; intros I j0 s H0 Hstep.
  - by apply Exists_nil in Hex.
  - cbn [rangeLoop].
    destruct (Hstep O a s eq_refl H0) as [(Hgood & s1 & Hb & H1) | (p & Hb & Hp)];
      rewrite Z.add_0_r in Hb; rewrite Hb.
    + rewrite bind_Ok. apply Exists_cons in Hex as [Ha | Hl]; [done|].
      apply (IH Hl (fun k => I (S k))); [done|].
      intros k x t Hk Ht.
      replace (j0 + 1 + Z.of_nat k) with (j0 + Z.of_nat (S k)) by lia.
      by apply Hstep.
    + exists p. by split.
Qed.

Lemma fateRow_spec (W : nat) (cb : list Row) (i : nat) (crow row : Row) :
  cb !! i = Some crow → length crow = W → length row = W →
  Forall steadyCell row →
  ∃ row', fateRow cb (Z.of_nat i) row = Ok row' ∧ length row' = W ∧
    ∀ j : nat, (j < W)%nat →
      row' !! j = Some (fate (getZ row (Z.of_nat j)) (getZ crow (Z.of_nat j))).
Proof.
  intros Hcb Hcrow Hrow Hst. unfold fateRow.
  loop_inv (fun (k : nat) (r : Row) =>
    length r = W ∧
    (∀ j : nat, (j < k)%nat →
       r !! j = Some (fate (getZ row (Z.of_nat j)) (getZ crow (Z.of_nat j)))) ∧
    (∀ j : nat, (k <= j)%nat → r !! j = row !! j)).
  - intros (row' & -> & Hlen & Hlow & _). exists row'.
    split; [done|]. split; [done|]. intros j Hj. apply Hlow. lia.
  - split; [done|]. split; [intros j Hj; lia | done].
  - intros k cell r Hk (Hlen & Hlow & Hhigh).
    pose proof (lookup_lt_Some _ _ _ Hk) as Hkl.
    rewrite Z.add_0_l, (index_lookup _ _ _ Hcb), bind_Ok.
    rewrite (index_getZ crow) by (unfold len; lia). rewrite bind_Ok.
    assert (Hfate : ∃ r', (if cell =? CellEmpty then
                if getZ crow (Z.of_nat k) =? 3
                then store r (Z.of_nat k) CellBorn else Ok r
              else if cell =? CellAlive then
                if (getZ crow (Z.of_nat k) <? 2) || (getZ crow (Z.of_nat k) >? 3)
                then store r (Z.of_nat k) CellDying else Ok r
              else Panic (WrongCellFeed cell)) = Ok r'
            ∧ r' = <[k := fate cell (getZ crow (Z.of_nat k))]> r).
    { pose proof (proj1 (Forall_lookup _ _) Hst _ _ Hk) as Hc.
      assert (Hid : <[k := cell]> r = r).
      { apply list_insert_id. by rewrite Hhigh. }
      unfold fate. destruct Hc as [-> | ->]; cbn [Z.eqb CellEmpty CellAlive].
      - change (0 =? 0) with true. cbv iota.
        destruct (_ =? 3); [rewrite store_insert by lia|]; by eexists.
      - change (1 =? 0) with false. change (1 =? 1) with true. cbv iota.
        destruct (_ || _); [rewrite store_insert by lia|]; by eexists. }
    destruct Hfate as (r' & -> & ->). eexists. split; [done|].
    split; [by rewrite length_insert|]. split.
    + intros j Hj. destruct (decide (j = k)) as [->|Hne].
      * rewrite list_lookup_insert_eq by lia.
        by rewrite (getZ_lookup _ _ _ Hk).
      * rewrite list_lookup_insert_ne by done. apply Hlow. lia.
    + intros j Hj. rewrite list_lookup_insert_ne by lia. apply Hhigh. lia.
Qed.

Lemma fateRow_panic (W : nat) (cb rows : list Row) (i : nat) (crow row : Row) :
  cb !! i = Some crow → length crow = W → length row = W →
  row ∈ rows → Exists (fun c => ¬ steadyCell c) row →
  ∃ p, fateRow cb (Z.of_nat i) row = Panic p ∧ wrongCellPanic rows p.
Proof.
  intros Hcb Hcrow Hrow Hin Hex. unfold fateRow.
  apply (rangeLoop_panic_inv _ (fun (k : nat) (r : Row) => length r = W)
           _ (fun c => ¬ steadyCell c)); [done| |done].
  intros k cell r Hk Hlen.
  pose proof (lookup_lt_Some _ _ _ Hk) as Hkl.
  rewrite Z.add_0_l, (index_lookup _ _ _ Hcb), bind_Ok.
  rewrite (index_getZ crow) by (unfold len; lia). rewrite bind_Ok.
  destruct (decide (steadyCell cell)) as [Hc | Hc].
  - left. split; [tauto|].
    destruct Hc as [-> | ->].
    + change (CellEmpty =? CellEmpty) with true. cbv iota.
      destruct (_ =? 3); [rewrite store_insert by lia|];
        eexists; (split; [done|]); by rewrite ?length_insert.
    + change (CellAlive =? CellEmpty) with false.
      change (CellAlive =? CellAlive) with true. cbv iota.
      destruct (_ || _); [rewrite store_insert by lia|];
        eexists; (split; [done|]); by rewrite ?length_insert.
  - right. exists (WrongCellFeed cell). split.
    + destruct (Z.eqb_spec cell CellEmpty) as [->|_]; [by destruct Hc; left|].
      destruct (Z.eqb_spec cell CellAlive) as [->|_]; [by destruct Hc; right|].
      done.
    + exists cell, row. split; [done|]. split; [done|]. split; [|done].
      apply list_elem_of_lookup. by exists k.
Qed.

Lemma steady_row_dec (row : Row) : {Forall steadyCell row} + {transientRow row}.
Proof. apply Forall_Exists_dec. intros c. apply steadyCell_dec. Defined.

Lemma steady_not_transient (row : Row) :
  Forall steadyCell row → ¬ transientRow row.
Proof.
  intros HF HE. apply Exists_exists in HE as (c & Hc & Hn).
  apply Hn. rewrite Forall_forall in HF. by apply HF.
Qed.

Lemma sweep_spec (W : nat) (cb rows : list Row) :
  length cb = length rows → rect W cb → rect W rows → steady rows →
  ∃ rows', sweep cb rows = Ok rows' ∧ length rows' = length rows ∧
    rect W rows' ∧
    ∀ i j : nat, (i < length rows)%nat → (j < W)%nat →
      cellAt rows' (Z.of_nat i) (Z.of_nat j)
      = fate (cellAt rows (Z.of_nat i) (Z.of_nat j))
             (cellAt cb (Z.of_nat i) (Z.of_nat j)).
Proof.
  intros Hcb Hrc Hr Hs. unfold sweep.
  loop_inv (fun (k : nat) (rs : list Row) =>
    length rs = length rows ∧
    ∀ m : nat, (m < k)%nat →
      ∃ r, rs !! m = Some r ∧ length r = W ∧
        ∀ j : nat, (j < W)%nat →
          r !! j = Some (fate (cellAt rows (Z.of_nat m) (Z.of_nat j))
                              (cellAt cb (Z.of_nat m) (Z.of_nat j)))).
  - intros (rows' & -> & Hlen & Hall). exists rows'.
    split; [done|]. split; [done|]. split.
    + apply Forall_lookup. intros m r Hm.
      destruct (Hall m) as (r' & Hm' & Hl & _).
      { apply lookup_lt_Some in Hm. lia. }
      congruence.
    + intros i j Hi Hj. destruct (Hall i Hi) as (r & Hm & _ & Hc).
      rewrite (cellAt_lookup _ _ _ _ Hm). apply getZ_lookup. by apply Hc.
  - split; [done|]. intros m Hm. lia.
  - intros k row rs Hk (Hlen & Hall).
    pose proof (lookup_lt_Some _ _ _ Hk) as Hkl.
    pose proof (rect_lookup _ _ _ _ Hr Hk) as Hrow.
    destruct (lookup_lt_is_Some_2 cb k ltac:(lia)) as [crow Hcrow].
    pose proof (rect_lookup _ _ _ _ Hrc Hcrow) as Hcl.
    pose proof (proj1 (Forall_lookup _ _) Hs _ _ Hk) as Hst.
    rewrite Z.add_0_l.
    destruct (fateRow_spec W cb k crow row Hcrow Hcl Hrow Hst)
      as (row' & -> & Hl' & Hf).
    rewrite bind_Ok, store_insert by lia.
    eexists. split; [done|]. split; [by rewrite length_insert|].
    intros m Hm. destruct (decide (m = k)) as [->|Hne].
    + exists row'. split; [by rewrite list_lookup_insert_eq by lia|].
      split; [done|]. intros j Hj. rewrite (Hf j Hj).
      by rewrite (cellAt_lookup _ _ _ _ Hk), (cellAt_lookup _ _ _ _ Hcrow).
    + destruct (Hall m ltac:(lia)) as (r & Hr' & Hrest).
      exists r. split; [|done]. by rewrite list_lookup_insert_ne by done.
Qed.

Lemma sweep_panic (W : nat) (cb rows : list Row) :
  length cb = length rows → rect W cb → rect W rows →
  Exists transientRow rows →
  ∃ p, sweep cb rows = Panic p ∧ wrongCellPanic rows p.
Proof.
  intros Hcb Hrc Hr Hex. unfold sweep.
  apply (rangeLoop_panic_inv _
           (fun (k : nat) (rs : list Row) => length rs = length rows)
           _ transientRow); [done| |done].
  intros k row rs Hk Hlen.
  pose proof (lookup_lt_Some _ _ _ Hk) as Hkl.
  pose proof (rect_lookup _ _ _ _ Hr Hk) as Hrow.
  destruct (lookup_lt_is_Some_2 cb k ltac:(lia)) as [crow Hcrow].
  pose proof (rect_lookup _ _ _ _ Hrc Hcrow) as Hcl.
  rewrite Z.add_0_l.
  destruct (steady_row_dec row) as [Hst | Hbad].
  - left. split; [by apply steady_not_transient|].
    destruct (fateRow_spec W cb k crow row Hcrow Hcl Hrow Hst)
      as (row' & -> & Hl' & _).
    rewrite bind_Ok, store_insert by lia.
    eexists. split; [done|]. by rewrite length_insert.
  - right.
    destruct (fateRow_panic W cb rows k crow row Hcrow Hcl Hrow
                ltac:(by eapply list_elem_of_lookup_2) Hbad) as (p & -> & Hp).
    exists p. by split.
Qed.

(** [feed] on a rectangular, steady board: it returns, and every cell is
    the [fate] of the old cell under the counter's [countAt]. *)
Lemma feedRows_spec (W : nat) (rows : list Row) :
  rect W rows → (0 < length rows)%nat → steady rows →
  ∃ rows', feedRows rows = Ok rows' ∧ length rows' = length rows ∧
    rect W rows' ∧
    ∀ i j : nat, (i < length rows)%nat → (j < W)%nat →
      cellAt rows' (Z.of_nat i) (Z.of_nat j)
      = fate (cellAt rows (Z.of_nat i) (Z.of_nat j))
             (countAt (Z.of_nat W) rows (Z.of_nat i) (Z.of_nat j)).
Proof.
  intros Hr Hpos Hs. unfold feedRows.
  destruct (neighborCounts_spec W rows Hr Hpos) as (cb & -> & Hlen & Hrc & Hcnt).
  rewrite bind_Ok.
  destruct (sweep_spec W cb rows Hlen Hrc Hr Hs) as (rows' & -> & Hl' & Hr' & Hf).
  exists rows'. split; [done|]. split; [done|]. split; [done|].
  intros i j Hi Hj. by rewrite (Hf i j Hi Hj), (Hcnt i j Hi Hj).
Qed.

(** [feed] on a rectangular board with a cell that is neither [Empty] nor
    [Alive]: the sweep panics with its own message. *)
Lemma feedRows_panic (W : nat) (rows : list Row) :
  rect W rows → (0 < length rows)%nat → Exists transientRow rows →
  ∃ p, feedRows rows = Panic p ∧ wrongCellPanic rows p.
Proof.
  intros Hr Hpos Hex. unfold feedRows.
  destruct (neighborCounts_spec W rows Hr Hpos) as (cb & -> & Hlen & Hrc & _).
  rewrite bind_Ok. by apply (sweep_panic W).
Qed.

(** Whatever the shape of the board, [feed] does not return when a cell is
    neither [Empty] nor [Alive]. *)
Lemma feedRows_never_Ok (rows : list Row) :
  Exists transientRow rows → ∃ p, feedRows rows = Panic p.
Proof.
  intros Hex. unfold feedRows.
  destruct (neighborCounts rows) as [cb|p]; [|by exists p].
  rewrite bind_Ok. unfold sweep.
  apply (rangeLoop_panics _ transientRow); [|done].
  intros i row rs Hbad.
  assert (∃ p, fateRow cb i row = Panic p) as [p ->]; [|by exists p].
  unfold fateRow.
  apply (rangeLoop_panics _ (fun c => ¬ steadyCell c)); [|done].
  intros j c r Hc.
  destruct (index cb i) as [crow|p]; [|by exists p]. rewrite bind_Ok.
  destruct (index crow j) as [nbrs|p]; [|by exists p]. rewrite bind_Ok.
  destruct (Z.eqb_spec c CellEmpty) as [->|_]; [by destruct Hc; left|].
  destruct (Z.eqb_spec c CellAlive) as [->|_]; [by destruct Hc; right|].
  by eexists.
Qed.

(** ** The resolve pass in closed form *)

Lemma resolve_steady (c : Cell) : steadyCell c → resolve c = c.
Proof. by intros [-> | ->]. Qed.

Lemma resolve_is_steady (c : Cell) : steadyCell (resolve c).
Proof. unfold resolve. destruct (_ || _); [by left | by right]. Qed.

Lemma lifeOnRow_spec (i : Z) (row : Row) (empty filled : Z) :
  Forall validCell row →
  ∃ e f, lifeOnRow i row empty filled = Ok (resolve <$> row, e, f).
Proof.
  intros Hv. unfold lifeOnRow.
  loop_inv (fun (k : nat) (s : Row * Z * Z) =>
    length s.1.1 = length row ∧
    ∀ j : nat, s.1.1 !! j = if decide (j < k)%nat
                            then resolve <$> row !! j else row !! j).
  - intros ([[r e] f] & -> & Hlen & Hall). cbn in Hlen, Hall.
    exists e, f. do 3 f_equal. apply list_eq. intros j.
    rewrite Hall, list_lookup_fmap. destruct (decide (j < length row)%nat); [done|].
    by rewrite lookup_ge_None_2 by lia.
  - cbn. split; [done|]. intros j. destruct (decide (j < 0)%nat); [lia | done].
  - intros k c [[r e] f] Hk (Hlen & Hall). cbn in Hlen, Hall.
    pose proof (lookup_lt_Some _ _ _ Hk) as Hkl.
    pose proof (proj1 (Forall_lookup _ _) Hv _ _ Hk) as Hc.
    rewrite Z.add_0_l.
    assert (Hbody :
      ∃ e' f', (if (c =? CellEmpty) || (c =? CellDying) then
                  row0 ← store r (Z.of_nat k) CellEmpty; Ok (row0, e + 1, f)
                else if (c =? CellBorn) || (c =? CellAlive) then
                  row0 ← store r (Z.of_nat k) CellAlive; Ok (row0, e, f + 1)
                else Panic (WrongCellLifeOn c (Z.of_nat k) i))
               = Ok (<[k := resolve c]> r, e', f')).
    { unfold resolve. rewrite !store_insert by lia. rewrite !bind_Ok.
      destruct ((c =? CellEmpty) || (c =? CellDying)) eqn:E0; [by eexists _, _|].
      destruct ((c =? CellBorn) || (c =? CellAlive)) eqn:E; [by eexists _, _|].
      unfold validCell, CellBorn, CellAlive, CellEmpty, CellDying in *.
      apply orb_false_iff in E0 as [E3 E4]. apply orb_false_iff in E as [E1 E2].
      apply Z.eqb_neq in E1, E2, E3, E4. lia. }
    destruct Hbody as (e' & f' & ->). eexists. split; [done|]. cbn.
    split; [by rewrite length_insert|].
    intros j. destruct (decide (j = k)) as [->|Hne].
    + rewrite list_lookup_insert_eq by lia.
      destruct (decide (k < S k)%nat); [|lia]. by rewrite Hk.
    + rewrite list_lookup_insert_ne by done. rewrite Hall.
      destruct (decide (j < k)%nat), (decide (j < S k)%nat); (done || lia).
Qed.

Lemma lifeOnRows_spec (rows : list Row) :
  valid rows →
  ∃ e f, lifeOnRows rows = Ok (resolveRows rows, e, f).
Proof.
  intros Hv. unfold lifeOnRows.
  loop_inv (fun (k : nat) (s : list Row * Z * Z) =>
    length s.1.1 = length rows ∧
    ∀ m : nat, s.1.1 !! m = if decide (m < k)%nat
                            then resolveRow <$> rows !! m else rows !! m).
  - intros ([[rs e] f] & -> & Hlen & Hall). cbn in Hlen, Hall.
    exists e, f. do 3 f_equal. apply list_eq. intros m.
    unfold resolveRows. rewrite Hall, list_lookup_fmap. destruct (decide (m < length rows)%nat); [done|].
    by rewrite lookup_ge_None_2 by lia.
  - cbn. split; [done|]. intros m. destruct (decide (m < 0)%nat); [lia | done].
  - intros k row [[rs e] f] Hk (Hlen & Hall). cbn in Hlen, Hall.
    pose proof (lookup_lt_Some _ _ _ Hk) as Hkl.
    pose proof (proj1 (Forall_lookup _ _) Hv _ _ Hk) as Hrow.
    destruct (lifeOnRow_spec (0 + Z.of_nat k) row e f Hrow) as (e' & f' & ->).
    rewrite bind_Ok, Z.add_0_l, store_insert by lia. rewrite bind_Ok.
    eexists. split; [done|]. cbn. split; [by rewrite length_insert|].
    intros m. destruct (decide (m = k)) as [->|Hne].
    + rewrite list_lookup_insert_eq by lia.
      destruct (decide (k < S k)%nat); [|lia]. by rewrite Hk.
    + rewrite list_lookup_insert_ne by done. rewrite Hall.
      destruct (decide (m < k)%nat), (decide (m < S k)%nat); (done || lia).
Qed.

Lemma resolve_rows_steady (rows : list Row) : steady (resolveRows rows).
Proof.
  apply Forall_fmap, Forall_true. intros row.
  apply Forall_fmap, Forall_true. intros c. apply resolve_is_steady.
Qed.

Lemma resolve_rows_id (rows : list Row) :
  steady rows → resolveRows rows = rows.
Proof.
  intros Hs. induction Hs as [|row rows Hrow _ IH]; [done|].
  unfold resolveRows in *. cbn. rewrite IH. f_equal.
  induction Hrow as [|c row Hc _ IHr]; [done|].
  unfold resolveRow in *. cbn. by rewrite IHr, (resolve_steady c Hc).
Qed.

Lemma resolve_rows_rect (W : nat) (rows : list Row) :
  rect W rows → rect W (resolveRows rows).
Proof.
  intros Hr. apply Forall_fmap. eapply Forall_impl; [exact Hr|].
  intros row Hl. unfold compose, resolveRow. by rewrite length_fmap.
Qed.

Lemma steady_valid (rows : list Row) : steady rows → valid rows.
Proof.
  intros Hs. eapply Forall_impl; [exact Hs|]. intros row Hrow.
  eapply Forall_impl; [exact Hrow|]. intros c [-> | ->]; by compute.
Qed.

(** ** Board creation and the random fill in closed form *)

Lemma fill_row_empty (W : nat) :
  forLoop (fun j (r : Row) => store r j CellEmpty) 0 W (replicate W 0)
  = Ok (replicate W CellEmpty).
Proof.
  destruct (forLoop_inv (fun j (r : Row) => store r j CellEmpty)
              (fun (_ : nat) (r : Row) => r = replicate W 0) W 0
              (replicate W 0)) as (r & -> & ->); [done| |done].
  intros k r Hk ->. rewrite Z.add_0_l, store_insert
    by (by rewrite length_replicate).
  eexists. split; [done|]. apply list_insert_id.
  by apply lookup_replicate_2.
Qed.

(** [NewBoard] on every pair of arguments. *)
Lemma NewBoard_eq (nColumns nRows : Z) :
  NewBoard nColumns nRows =
    if tooLong sizeofRow nRows then Panic MakeLenOutOfRange
    else if nRows =? 0 then Ok (mkBoard [])
    else if tooLong sizeofCell nColumns then Panic MakeLenOutOfRange
    else Ok (mkBoard (emptyRows nColumns nRows)).
Proof.
  unfold NewBoard.
  destruct (tooLong sizeofRow nRows) eqn:ER;
    [by rewrite (make_refused _ _ nRows ER)|].
  rewrite (make_granted _ _ nRows ER), bind_Ok.
  apply tooLong_false in ER as [Hr _].
  destruct (Z.eqb_spec nRows 0) as [->|Hr0]; [done|].
  destruct (tooLong sizeofCell nColumns) eqn:EC.
  { destruct (Z.to_nat nRows) as [|n] eqn:Hn; [lia|].
    cbn [replicate rangeLoop]. by rewrite (make_refused _ _ nColumns EC). }
  pose proof (proj1 (proj1 (tooLong_false _ _) EC)) as Hc.
  loop_inv (fun (k : nat) (rs : list Row) =>
    length rs = Z.to_nat nRows ∧
    ∀ m : nat, (m < k)%nat →
      rs !! m = Some (replicate (Z.to_nat nColumns) CellEmpty)).
  - intros (rows & -> & Hlen & Hall). rewrite bind_Ok. do 2 f_equal.
    rewrite length_replicate in Hall.
    apply list_eq. intros m. unfold emptyRows.
    destruct (decide (m < Z.to_nat nRows)%nat) as [Hm|Hm].
    + rewrite Hall by done. symmetry. by apply lookup_replicate_2.
    + rewrite !lookup_ge_None_2; [done| |]; rewrite ?length_replicate; lia.
  - split; [by rewrite length_replicate|]. intros m Hm. lia.
  - intros k row rs Hk (Hlen & Hall).
    apply lookup_replicate in Hk as [_ Hk].
    rewrite (make_granted _ _ nColumns EC), bind_Ok, fill_row_empty, bind_Ok, Z.add_0_l.
    rewrite store_insert by lia.
    eexists. split; [done|]. split; [by rewrite length_insert|].
    intros m Hm. destruct (decide (m = k)) as [->|Hne].
    + by rewrite list_lookup_insert_eq by lia.
    + rewrite list_lookup_insert_ne by done. apply Hall. lia.
Qed.

Lemma emptyRows_length (nColumns nRows : Z) :
  length (emptyRows nColumns nRows) = Z.to_nat nRows.
Proof. unfold emptyRows. by rewrite length_replicate. Qed.

Lemma emptyRows_rect (nColumns nRows : Z) :
  rect (Z.to_nat nColumns) (emptyRows nColumns nRows).
Proof.
  apply Forall_replicate. by rewrite length_replicate.
Qed.

Lemma Intn_Colors_valid (rnd : Rand) :
  validCell (toCell (Intn rnd (len Colors)).1).
Proof.
  unfold Intn, toCell, validCell. cbn [fst]. change (len Colors) with 4.
  pose proof (Z.mod_pos_bound (draws rnd (pos rnd)) 4 ltac:(lia)).
  rewrite Z.mod_small; lia.
Qed.

Lemma RandomFill_spec (W : nat) (rows : list Row) (rnd : Rand) :
  rect W rows →
  ∃ rows' rnd', RandomFill (mkBoard rows) rnd = Ok (mkBoard rows', rnd') ∧
    length rows' = length rows ∧ rect W rows' ∧ valid rows'.
Proof.
  intros Hr. unfold RandomFill. cbn [Rows].
  loop_inv (fun (k : nat) (s : list Row * Rand) =>
    length s.1 = length rows ∧
    ∀ m : nat, (m < k)%nat →
      ∃ r, s.1 !! m = Some r ∧ length r = W ∧ Forall validCell r).
  - intros ([rows' rnd'] & -> & Hlen & Hall). cbn in Hlen, Hall.
    rewrite bind_Ok. exists rows', rnd'. split; [done|]. split; [done|].
    split; apply Forall_lookup; intros m r Hm;
      (destruct (Hall m) as (r' & Hm' & Hl & Hv);
       [apply lookup_lt_Some in Hm; lia | congruence]).
  - cbn. split; [done|]. intros m Hm. lia.
  - intros k row [rs g] Hk (Hlen & Hall). cbn in Hlen, Hall.
    pose proof (lookup_lt_Some _ _ _ Hk) as Hkl.
    pose proof (rect_lookup _ _ _ _ Hr Hk) as Hrow.
    loop_inv (fun (n : nat) (s : Row * Rand) =>
      length s.1 = W ∧
      ∀ j : nat, (j < n)%nat → ∃ c, s.1 !! j = Some c ∧ validCell c).
    + intros ([row' g'] & -> & Hl' & Hcells). cbn in Hl', Hcells.
      rewrite bind_Ok, Z.add_0_l, store_insert by lia. rewrite bind_Ok.
      eexists. split; [done|]. cbn. split; [by rewrite length_insert|].
      intros m Hm. destruct (decide (m = k)) as [->|Hne].
      * exists row'. split; [by rewrite list_lookup_insert_eq by lia|].
        split; [done|]. apply Forall_lookup. intros j c Hj.
        destruct (Hcells j) as (c' & Hj' & Hc').
        { apply lookup_lt_Some in Hj. lia. }
        congruence.
      * destruct (Hall m ltac:(lia)) as (r & Hm' & Hrest).
        exists r. split; [|done]. by rewrite list_lookup_insert_ne by done.
    + cbn. split; [done|]. intros j Hj. lia.
    + intros n c [r g'] Hn (Hl' & Hcells). cbn in Hl', Hcells.
      pose proof (lookup_lt_Some _ _ _ Hn) as Hnl.
      pose proof (Intn_Colors_valid g') as Hvalid.
      destruct (Intn g' (len Colors)) as [x g''] eqn:HI. cbn [fst] in Hvalid.
      rewrite Z.add_0_l, store_insert by lia. rewrite bind_Ok.
      eexists. split; [done|]. cbn. split; [by rewrite length_insert|].
      intros j Hj. destruct (decide (j = n)) as [->|Hne].
      * eexists. split; [by rewrite list_lookup_insert_eq by lia | done].
      * rewrite list_lookup_insert_ne by done. apply Hcells. lia.
Qed.

(** ** The tick loop *)

Lemma Update_eq (g : Game) (k : Keys) :
  let g1 := processInput g k in
  let g2 := mkGame (GBoard g1) (negb (FeedPhase g1)) (Paused g1) (Speed g1) in
  Update g k = match tickPhase g k with
               | None => Ok g1
               | Some Mark => feed g2
               | Some Resolve => lifeOn g2
               end.
Proof.
  cbv zeta. unfold Update, tickPhase.
  destruct (Paused (processInput g k)); [done|].
  by destruct (FeedPhase (processInput g k)).
Qed.

Lemma processInput_frame (g : Game) (k : Keys) :
  GBoard (processInput g k) = GBoard g ∧
  FeedPhase (processInput g k) = FeedPhase g.
Proof.
  unfold processInput.
  by destruct (KeySpace k), (KeyLeft k), (KeyRight k).
Qed.

Lemma feed_Ok_inv (g g' : Game) :
  feed g = Ok g' →
  ∃ rows', feedRows (Rows (GBoard g)) = Ok rows' ∧
    g' = mkGame (mkBoard rows') (FeedPhase g) (Paused g) (Speed g).
Proof.
  unfold feed. intros Hf. apply bind_Ok_inv in Hf as (rows' & Hr & [= <-]).
  by exists rows'.
Qed.

Lemma lifeOn_resolve (g : Game) :
  valid (Rows (GBoard g)) →
  lifeOn g = Ok (mkGame (mkBoard (resolveRows (Rows (GBoard g))))
                        (FeedPhase g) (Paused g) (Speed g)).
Proof.
  intros Hv. unfold lifeOn.
  by destruct (lifeOnRows_spec _ Hv) as (e & f & ->).
Qed.

Lemma fate_valid (c n : Z) : steadyCell c → validCell (fate c n).
Proof.
  intros [-> | ->]; unfold fate, validCell; cbn.
  - destruct (n =? 3); by compute.
  - destruct (_ || _); by compute.
Qed.

Lemma feedRows_valid (W : nat) (rows : list Row) :
  rect W rows → (0 < length rows)%nat → steady rows →
  ∃ rows', feedRows rows = Ok rows' ∧ length rows' = length rows ∧
    rect W rows' ∧ valid rows'.
Proof.
  intros Hr Hpos Hs.
  destruct (feedRows_spec W rows Hr Hpos Hs) as (rows' & Hf & Hlen & Hr' & Hc).
  exists rows'. split; [done|]. split; [done|]. split; [done|].
  apply Forall_lookup. intros i row Hi. apply Forall_lookup. intros j c Hj.
  pose proof (lookup_lt_Some _ _ _ Hi) as Hil.
  pose proof (lookup_lt_Some _ _ _ Hj) as Hjl.
  rewrite (rect_lookup _ _ _ _ Hr' Hi) in Hjl.
  specialize (Hc i j ltac:(lia) Hjl).
  rewrite (cellAt_lookup _ _ _ _ Hi), (getZ_lookup _ _ _ Hj) in Hc.
  rewrite Hc. apply fate_valid, steady_cellAt, Hs.
Qed.

Lemma resolveRows_length (rows : list Row) :
  length (resolveRows rows) = length rows.
Proof. unfold resolveRows. by rewrite length_fmap. Qed.

(** One tick keeps the invariant. *)
Lemma Update_tickInv (W H : nat) (g g' : Game) (k : Keys) :
  tickInv W H g → Update g k = Ok g' → tickInv W H g'.
Proof.
  intros (Hlen & Hr & Hcells) HU. rewrite Update_eq in HU. cbv zeta in HU.
  unfold tickPhase in HU. cbv zeta in HU.
  destruct (processInput_frame g k) as [Hb Hfp].
  destruct (Paused (processInput g k)) eqn:Hp.
  - injection HU as <-. unfold tickInv. by rewrite Hb, Hfp.
  - rewrite Hfp, Hb in HU. destruct (FeedPhase g) eqn:Hf; cbn [phaseOf negb] in HU.
    + apply feed_Ok_inv in HU as (rows' & Hfeed & ->). cbn [GBoard] in Hfeed.
      destruct (Rows (GBoard g)) as [|r0 rows0] eqn:Hrows; [done|].
      destruct (feedRows_valid W (r0 :: rows0) Hr ltac:(cbn; lia) Hcells)
        as (rows'' & Hfeed' & Hl' & Hr' & Hv').
      rewrite Hfeed in Hfeed'. injection Hfeed' as <-.
      unfold tickInv. cbn. split; [congruence | by split].
    + rewrite lifeOn_resolve in HU by done. injection HU as <-.
      unfold tickInv. cbn. split; [by rewrite resolveRows_length|].
      split; [by apply resolve_rows_rect | apply resolve_rows_steady].
Qed.

Lemma run_tickInv (W H : nat) (ks : list Keys) (g g' : Game) :
  tickInv W H g → run g ks = Ok g' → tickInv W H g'.
Proof.
  revert g. induction ks as [|k ks IH]; intros g Hinv Hrun.
  - by injection Hrun as <-.
  - cbn in Hrun. apply bind_Ok_inv in Hrun as (g1 & HU & Hrun).
    apply (IH g1); [|done]. by eapply Update_tickInv.
Qed.

(** With at least one row no tick panics. *)
Lemma Update_total (W H : nat) (g : Game) (k : Keys) :
  tickInv W H g → (0 < H)%nat → ∃ g', Update g k = Ok g'.
Proof.
  intros (Hlen & Hr & Hcells) Hpos. rewrite Update_eq. cbv zeta.
  unfold tickPhase. cbv zeta.
  destruct (processInput_frame g k) as [Hb Hfp].
  destruct (Paused (processInput g k)); [by eexists|].
  rewrite Hfp, Hb. destruct (FeedPhase g); cbn [phaseOf].
  - unfold feed. cbn [GBoard].
    destruct (feedRows_valid W _ Hr ltac:(lia) Hcells) as (rows' & -> & _).
    by eexists.
  - rewrite lifeOn_resolve by done. by eexists.
Qed.

Lemma run_total (W H : nat) (ks : list Keys) (g : Game) :
  tickInv W H g → (0 < H)%nat → ∃ g', run g ks = Ok g'.
Proof.
  revert g. induction ks as [|k ks IH]; intros g Hinv Hpos; [by eexists|].
  cbn. destruct (Update_total W H g k Hinv Hpos) as (g1 & HU).
  rewrite HU, bind_Ok. apply IH; [|done]. by eapply Update_tickInv.
Qed.

(** What [NewGame] returns when it returns. *)
Lemma NewGame_inv (rnd rnd' : Rand) (nColumns nRows : Z) (g : Game) :
  NewGame rnd nColumns nRows = Ok (g, rnd') →
  0 <= nRows ∧ FeedPhase g = false ∧ Paused g = false ∧ Speed g = 10 ∧
  tickInv (Z.to_nat nColumns) (Z.to_nat nRows) g.
Proof.
  unfold NewGame. rewrite NewBoard_eq. intros HN.
  assert (Hgen : ∀ rows : list Row,
    rect (Z.to_nat nColumns) rows → length rows = Z.to_nat nRows →
    (Ok (mkBoard rows) ≫= λ b : Board,
       RandomFill b rnd ≫= λ '(b0, rnd0), Ok (mkGame b0 false false 10, rnd0))
    = Ok (g, rnd') →
    FeedPhase g = false ∧ Paused g = false ∧ Speed g = 10 ∧
    tickInv (Z.to_nat nColumns) (Z.to_nat nRows) g).
  { intros rows Hr Hl. rewrite bind_Ok.
    destruct (RandomFill_spec _ rows rnd Hr) as (rows' & r' & -> & Hl' & Hr' & Hv).
    rewrite bind_Ok. intros [= <- <-]. unfold tickInv. cbn.
    split; [done|]. split; [done|]. split; [done|].
    split; [congruence|]. by split. }
  destruct (tooLong sizeofRow nRows) eqn:ER; [done|].
  apply tooLong_false in ER as [Hr _]. split; [done|].
  destruct (Z.eqb_spec nRows 0) as [->|Hr0].
  { apply (Hgen []); [by apply Forall_nil | done | done]. }
  destruct (tooLong sizeofCell nColumns) eqn:EC; [done|].
  apply (Hgen (emptyRows nColumns nRows));
    [apply emptyRows_rect | apply emptyRows_length | done].
Qed.

(** When [NewGame] returns, and what it returns then: the row table
    must pass the length check of [make], and so must a row unless there
    is none to make. *)
Lemma NewGame_returns (rnd : Rand) (nColumns nRows : Z) :
  0 <= nRows → sizeofRow * nRows <= maxAlloc →
  nRows = 0 ∨ (0 <= nColumns ∧ sizeofCell * nColumns <= maxAlloc) →
  ∃ g rnd', NewGame rnd nColumns nRows = Ok (g, rnd') ∧
    FeedPhase g = false ∧ Paused g = false ∧ Speed g = 10 ∧
    tickInv (Z.to_nat nColumns) (Z.to_nat nRows) g.
Proof.
  intros Hr HrA Hc.
  assert (∃ g rnd', NewGame rnd nColumns nRows = Ok (g, rnd'))
    as (g & rnd' & HN).
  { unfold NewGame. rewrite NewBoard_eq.
    rewrite (proj2 (tooLong_false sizeofRow nRows)) by done.
    assert (∃ rows, (if nRows =? 0 then Ok (mkBoard [])
                     else if tooLong sizeofCell nColumns
                          then Panic MakeLenOutOfRange
                     else Ok (mkBoard (emptyRows nColumns nRows)))
                    = Ok (mkBoard rows) ∧ rect (Z.to_nat nColumns) rows)
      as (rows & -> & Hrect).
    { destruct (Z.eqb_spec nRows 0);
        [eexists; split; [done | by apply Forall_nil] |].
      destruct Hc as [? | Hc]; [lia|].
      rewrite (proj2 (tooLong_false sizeofCell nColumns)) by done.
      eexists; split; [done | apply emptyRows_rect]. }
    rewrite bind_Ok.
    destruct (RandomFill_spec _ rows rnd Hrect) as (rows' & r' & -> & _).
    rewrite bind_Ok. by eexists _, _. }
  exists g, rnd'. split; [done|].
  by apply NewGame_inv in HN as (_ & ? & ? & ? & ?).
Qed.

(** ** Properties of the engine *)

Lemma value_nonneg (c : Cell) : 0 <= value c <= 1.
Proof. unfold value. destruct (c =? CellAlive); lia. Qed.

Lemma below_last (n : Z) : 0 < n → below (n - 1) n = 0.
Proof.
  intros Hn. unfold below. replace (n - 1 + 1) with n by lia.
  apply Z.mod_same. lia.
Qed.

Ltac value_bounds :=
  repeat match goal with
  | |- context [value ?c] =>
      let H := fresh in
      pose proof (value_nonneg c) as H;
      generalize dependent (value c); intros
  end.

(** C1.  On every board of [H >= 1] rows of [W] cells, all [Empty] or
    [Alive], the counter of [feed] (row sums, then column sums, minus the
    cell) returns, and its count at every cell is the naive scan of the 8
    toroidal neighbours.  In particular a live cell at (0,0) is counted at
    (H-1,0), (0,W-1) and (H-1,W-1). *)
Theorem neighborCounts_refines_naive_scan (W : nat) (rows : list Row) :
  rect W rows → (0 < length rows)%nat → steady rows →
  ∃ cb, neighborCounts rows = Ok cb ∧
    (∀ i j : nat, (i < length rows)%nat → (j < W)%nat →
       cellAt cb (Z.of_nat i) (Z.of_nat j)
       = specNaiveCount (len rows) (Z.of_nat W) rows (Z.of_nat i) (Z.of_nat j)) ∧
    (cellAt rows 0 0 = CellAlive →
       1 <= cellAt cb (len rows - 1) 0 ∧
       1 <= cellAt cb 0 (Z.of_nat W - 1) ∧
       1 <= cellAt cb (len rows - 1) (Z.of_nat W - 1)).
Proof.
  intros Hr Hpos Hs.
  destruct (neighborCounts_spec W rows Hr Hpos) as (cb & Hcb & Hlen & Hrc & Hcnt).
  assert (Hnaive : ∀ i j : nat, (i < length rows)%nat → (j < W)%nat →
    cellAt cb (Z.of_nat i) (Z.of_nat j)
    = specNaiveCount (len rows) (Z.of_nat W) rows (Z.of_nat i) (Z.of_nat j)).
  { intros i j Hi Hj. rewrite (Hcnt i j Hi Hj).
    apply countAt_naive; [done| unfold len; lia | lia | done]. }
  exists cb. split; [done|]. split; [done|].
  intros Halive.
  assert (HW : (0 < W)%nat).
  { destruct rows as [|r0 rows']; [cbn in Hpos; lia|].
    pose proof (rect_lookup W (r0 :: rows') 0 r0 Hr eq_refl) as Hl0.
    destruct r0 as [|c0 r0]; [discriminate Halive | cbn in Hl0; lia]. }
  assert (Hv : value (cellAt rows 0 0) = 1) by (by rewrite Halive).
  assert (HnaiveZ : ∀ i j : Z, 0 <= i < len rows → 0 <= j < Z.of_nat W →
    cellAt cb i j = specNaiveCount (len rows) (Z.of_nat W) rows i j).
  { intros i j Hi Hj. unfold len in Hi.
    rewrite <- (Z2Nat.id i), <- (Z2Nat.id j) by lia. apply Hnaive; lia. }
  assert (HH : 0 < len rows) by (unfold len; lia).
  assert (Hb1 : below (len rows - 1) (len rows) = 0)
    by (by apply below_last).
  assert (Hb2 : below (Z.of_nat W - 1) (Z.of_nat W) = 0)
    by (apply below_last; lia).
  split; [|split].
  - rewrite HnaiveZ by lia. unfold specNaiveCount. cbv zeta.
    rewrite Hb1. revert Hv. value_bounds. lia.
  - rewrite HnaiveZ by lia. unfold specNaiveCount. cbv zeta.
    rewrite Hb2. revert Hv. value_bounds. lia.
  - rewrite HnaiveZ by lia. unfold specNaiveCount. cbv zeta.
    rewrite Hb1, Hb2. revert Hv. value_bounds. lia.
Qed.

Lemma neighborCounts_refines_naive_scan_witness :
  rect 3 corner3 ∧ (0 < length corner3)%nat ∧ steady corner3 ∧
  ∃ cb, neighborCounts corner3 = Ok cb ∧
    1 <= cellAt cb 2 0 ∧ 1 <= cellAt cb 0 2 ∧ 1 <= cellAt cb 2 2.
Proof.
  assert (Hr : rect 3 corner3) by (apply (bool_decide_unpack _); vm_compute; exact I).
  assert (Hp : (0 < length corner3)%nat) by (cbn; lia).
  assert (Hs : steady corner3) by (apply (bool_decide_unpack _); vm_compute; exact I).
  split; [exact Hr|]. split; [exact Hp|]. split; [exact Hs|].
  destruct (neighborCounts_refines_naive_scan 3 corner3 Hr Hp Hs)
    as (cb & Hcb & _ & Hwrap).
  exists cb. split; [exact Hcb|]. exact (Hwrap eq_refl).
Defined.

(** C2.  The mark sub-phase on every board of [H >= 1] rows of [W] cells,
    all [Empty] or [Alive]: [feed] returns, and with [n] the number of
    live cells among the 8 toroidal neighbours, an [Empty] cell becomes
    [Born] when [n = 3] and stays [Empty] otherwise, an [Alive] cell stays
    [Alive] when [n] is 2 or 3 and becomes [Dying] when [n < 2] or
    [n > 3]. *)
Theorem feed_rule_fidelity (W : nat) (g : Game) :
  let rows := Rows (GBoard g) in
  rect W rows → (0 < length rows)%nat → steady rows →
  ∃ g', feed g = Ok g' ∧
    ∀ i j : nat, (i < length rows)%nat → (j < W)%nat →
      let c := cellAt rows (Z.of_nat i) (Z.of_nat j) in
      let c' := cellAt (Rows (GBoard g')) (Z.of_nat i) (Z.of_nat j) in
      let n := specNaiveCount (len rows) (Z.of_nat W) rows
                 (Z.of_nat i) (Z.of_nat j) in
      (c = CellEmpty → n = 3 → c' = CellBorn) ∧
      (c = CellEmpty → n ≠ 3 → c' = CellEmpty) ∧
      (c = CellAlive → n = 2 ∨ n = 3 → c' = CellAlive) ∧
      (c = CellAlive → n < 2 ∨ n > 3 → c' = CellDying).
Proof.
  intros rows Hr Hpos Hs. unfold feed. fold rows.
  destruct (feedRows_spec W rows Hr Hpos Hs) as (rows' & -> & Hlen & Hr' & Hf).
  rewrite bind_Ok. eexists. split; [done|]. cbn [GBoard Rows].
  intros i j Hi Hj. cbv zeta. rewrite (Hf i j Hi Hj).
  rewrite (countAt_naive (len rows)) by (done || unfold len; lia).
  unfold fate.
  repeat split; intros -> Hn.
  - subst. by rewrite Hn.
  - cbn. by destruct (Z.eqb_spec (specNaiveCount (len rows) (Z.of_nat W) rows
                                    (Z.of_nat i) (Z.of_nat j)) 3).
  - cbn. destruct Hn as [-> | ->]; done.
  - cbn.
    destruct (Z.ltb_spec (specNaiveCount (len rows) (Z.of_nat W) rows
                            (Z.of_nat i) (Z.of_nat j)) 2); [done|].
    destruct (Z.gtb_spec (specNaiveCount (len rows) (Z.of_nat W) rows
                            (Z.of_nat i) (Z.of_nat j)) 3); [done|lia].
Qed.

Lemma feed_rule_fidelity_witness :
  rect 3 corner3 ∧ (0 < length corner3)%nat ∧ steady corner3 ∧
  ∃ g', feed cornerGame = Ok g' ∧ cellAt (Rows (GBoard g')) 0 0 = CellDying.
Proof.
  assert (Hr : rect 3 corner3) by (apply (bool_decide_unpack _); vm_compute; exact I).
  assert (Hp : (0 < length corner3)%nat) by (cbn; lia).
  assert (Hs : steady corner3) by (apply (bool_decide_unpack _); vm_compute; exact I).
  split; [exact Hr|]. split; [exact Hp|]. split; [exact Hs|].
  destruct (feed_rule_fidelity 3 cornerGame Hr Hp Hs) as (g' & Hg' & Hrule).
  exists g'. split; [exact Hg'|].
  destruct (Hrule 0%nat 0%nat ltac:(cbn; lia) ltac:(lia)) as (_ & _ & _ & Hd).
  apply Hd; [reflexivity | left; vm_compute; reflexivity].
Defined.

Lemma transitional_not_steady (c : Cell) : transitional c → ¬ steadyCell c.
Proof. by intros [-> | ->] [? | ?]. Qed.

Lemma transitional_transient (rows : list Row) :
  Exists (Exists transitional) rows → Exists transientRow rows.
Proof.
  intros Hex. eapply Exists_impl; [exact Hex|]. intros row Hrow.
  eapply Exists_impl; [exact Hrow|]. apply transitional_not_steady.
Qed.

(** C5.  On every board that holds a [Born] or [Dying] cell [feed] does
    not return: it panics.  When the board is one that [NewBoard] builds
    ([H >= 1] rows of [W] cells) the panic is the sweep's own
    "wrong cell value" and names a cell of the board that is neither
    [Empty] nor [Alive]. *)
Theorem feed_panics_on_transitional (g : Game) :
  let rows := Rows (GBoard g) in
  Exists (Exists transitional) rows →
  (∃ p, feed g = Panic p) ∧
  (∀ W, rect W rows → (0 < length rows)%nat →
     ∃ p, feed g = Panic p ∧ wrongCellPanic rows p).
Proof.
  intros rows Hex. apply transitional_transient in Hex. unfold feed. fold rows.
  split.
  - destruct (feedRows_never_Ok rows Hex) as (p & ->). by exists p.
  - intros W Hr Hpos.
    destruct (feedRows_panic W rows Hr Hpos Hex) as (p & -> & Hp).
    by exists p.
Qed.

Lemma feed_panics_on_transitional_witness :
  Exists (Exists transitional) [ [0; 1]; [2; 0] ] ∧
  ∃ p, feed (mkGame (mkBoard [ [0; 1]; [2; 0] ]) true false 10) = Panic p.
Proof.
  assert (Hex : Exists (Exists transitional) [ [0; 1]; [2; 0] ]).
  { apply Exists_cons_tl, Exists_cons_hd, Exists_cons_hd. left. reflexivity. }
  split; [exact Hex|].
  exact (proj1 (feed_panics_on_transitional
                  (mkGame (mkBoard [ [0; 1]; [2; 0] ]) true false 10) Hex)).
Defined.

(** C9.  On every board whose cells are all [Empty] or [Alive] the
    resolve sub-phase returns and leaves every cell, and the rest of the
    game, as it was. *)
Theorem lifeOn_steady_unchanged (g : Game) :
  steady (Rows (GBoard g)) → lifeOn g = Ok g.
Proof.
  intros Hs. rewrite lifeOn_resolve by (by apply steady_valid).
  rewrite resolve_rows_id by done. by destruct g as [[rows] fp p s].
Qed.

Lemma lifeOn_steady_unchanged_witness :
  steady corner3 ∧ lifeOn cornerGame = Ok cornerGame.
Proof.
  assert (Hs : steady corner3) by (apply (bool_decide_unpack _); vm_compute; exact I).
  split; [exact Hs|]. exact (lifeOn_steady_unchanged cornerGame Hs).
Defined.

(** *** Ticks *)

Lemma processInput_no_toggle (g : Game) (k : Keys) :
  KeySpace k = false → Paused (processInput g k) = Paused g.
Proof.
  intros Hk. unfold processInput. rewrite Hk.
  by destruct (KeyLeft k), (KeyRight k).
Qed.

Lemma lifeOn_Ok_inv (g g' : Game) :
  lifeOn g = Ok g' →
  FeedPhase g' = FeedPhase g ∧ Paused g' = Paused g ∧ Speed g' = Speed g.
Proof.
  unfold lifeOn. intros Hl.
  apply bind_Ok_inv in Hl as ([[rows e] f] & _ & [= <-]). done.
Qed.

(** The flags after a tick that returns. *)
Lemma Update_flags (g g' : Game) (k : Keys) :
  Update g k = Ok g' →
  Paused g' = Paused (processInput g k) ∧
  FeedPhase g' = (if Paused (processInput g k) then FeedPhase g
                  else negb (FeedPhase g)).
Proof.
  unfold Update. destruct (processInput_frame g k) as [_ Hfp].
  destruct (Paused (processInput g k)) eqn:Hp.
  - intros [= <-]. by rewrite Hp, Hfp.
  - rewrite Hfp. destruct (FeedPhase g); intros HU.
    + apply feed_Ok_inv in HU as (rows' & _ & ->). by cbn.
    + apply lifeOn_Ok_inv in HU as (-> & -> & _). by cbn.
Qed.

Lemma phaseOf_negb (fp : bool) : phaseOf (negb fp) = otherPhase (phaseOf fp).
Proof. by destruct fp. Qed.

(** From any state the sub-phases that run alternate, beginning with the
    one that [FeedPhase] announces. *)
Lemma phases_alternate (ks : list Keys) (g : Game) :
  alternates (phaseOf (FeedPhase g)) (phases g ks).
Proof.
  revert g. induction ks as [|k ks IH]; intros g; [done|].
  cbn [phases]. unfold tickPhase. cbv zeta.
  destruct (processInput_frame g k) as [_ Hfp].
  destruct (Update g k) as [g1|p] eqn:HU.
  - apply Update_flags in HU as [_ Hf1].
    destruct (Paused (processInput g k)); cbn [option_list app].
    + rewrite <- Hf1. apply IH.
    + rewrite Hfp. split; [done|]. rewrite <- phaseOf_negb, <- Hf1. apply IH.
  - destruct (Paused (processInput g k)); cbn [option_list app alternates];
      [done | by rewrite Hfp].
Qed.

(** A run during which pause is never toggled, from an unpaused state. *)
Lemma run_unpaused (W H : nat) (ks : list Keys) (g : Game) :
  tickInv W H g → (0 < H)%nat → Paused g = false →
  Forall (fun k => KeySpace k = false) ks →
  ∃ g', run g ks = Ok g' ∧ Paused g' = false ∧
    FeedPhase g' = xorb (FeedPhase g) (Nat.odd (length ks)) ∧
    length (phases g ks) = length ks.
Proof.
  intros Hinv Hpos. revert g Hinv.
  induction ks as [|k ks IH]; intros g Hinv Hp Hks.
  - exists g. cbn. by rewrite xorb_false_r.
  - apply Forall_cons in Hks as [Hk Hks].
    destruct (Update_total W H g k Hinv Hpos) as (g1 & HU).
    pose proof (Update_tickInv W H g g1 k Hinv HU) as Hinv1.
    pose proof (Update_flags g g1 k HU) as [Hp1 Hf1].
    rewrite (processInput_no_toggle g k Hk), Hp in Hp1, Hf1.
    destruct (IH g1 Hinv1 Hp1 Hks) as (g' & Hrun & Hp' & Hf' & Hlen).
    exists g'. cbn [run phases]. rewrite HU, bind_Ok.
    split; [done|]. split; [done|]. split.
    + rewrite Hf', Hf1. cbn [length]. rewrite Nat.odd_succ, <- Nat.negb_odd.
      by destruct (FeedPhase g), (Nat.odd (length ks)).
    + unfold tickPhase. cbv zeta.
      rewrite (processInput_no_toggle g k Hk), Hp. cbn. by rewrite Hlen.
Qed.

(** C3 as written does not hold: the first tick after [NewGame] runs the
    resolve sub-phase.  On the one-cell board that [NewGame] fills with [Born],
    the first tick turns the cell to [Alive] ([lifeOn]); the second tick
    is the first mark. *)
Lemma first_tick_is_resolve_not_mark :
  NewGame twos 1 1 = Ok (bornGame, mkRand (fun _ => 2) 1) ∧
  Paused bornGame = false ∧
  tickPhase bornGame noKeys = Some Resolve ∧
  tickPhase bornGame noKeys ≠ Some Mark ∧
  Update bornGame noKeys = Ok (mkGame (mkBoard [ [1] ]) true false 10) ∧
  phases bornGame [noKeys; noKeys] = [Resolve; Mark].
Proof. by vm_compute. Qed.

(** C3, amended.  [NewGame] with at least one row and a width that is
    not negative, both within the length check of [make], returns, and
    during ticks that never toggle pause no tick panics, every tick runs
    a sub-phase and the sub-phases alternate
    resolve, mark, resolve, mark, ...: the tick after [n] ticks runs
    resolve ([lifeOn]) when [n] is even and mark ([feed]) when [n] is odd,
    and [FeedPhase] is set exactly when [n] is odd. *)
Theorem ticks_alternate_resolve_mark
  (rnd : Rand) (nColumns nRows : Z) (ks : list Keys) :
  0 <= nColumns → 0 < nRows →
  sizeofCell * nColumns <= maxAlloc → sizeofRow * nRows <= maxAlloc →
  Forall (fun k => KeySpace k = false) ks →
  ∃ g0 rnd' g,
    NewGame rnd nColumns nRows = Ok (g0, rnd') ∧
    run g0 ks = Ok g ∧ Paused g = false ∧
    FeedPhase g = Nat.odd (length ks) ∧
    (∀ k, KeySpace k = false →
       tickPhase g k = Some (if Nat.even (length ks) then Resolve else Mark) ∧
       Update g k =
         (if Nat.even (length ks) then lifeOn else feed)
           (mkGame (GBoard g) (negb (FeedPhase g)) false
                   (Speed (processInput g k)))) ∧
    length (phases g0 ks) = length ks ∧
    alternates Resolve (phases g0 ks).
Proof.
  intros Hc Hr HcA HrA Hks.
  destruct (NewGame_returns rnd nColumns nRows ltac:(lia) HrA ltac:(by right))
    as (g0 & rnd' & HN & Hf0 & Hp0 & _ & Hinv).
  destruct (run_unpaused _ _ ks g0 Hinv ltac:(lia) Hp0 Hks)
    as (g & Hrun & Hp & Hf & Hlen).
  rewrite Hf0, xorb_false_l in Hf.
  exists g0, rnd', g. split; [done|]. split; [done|]. split; [done|].
  split; [done|]. split; [|split].
  - intros k Hk.
    assert (Hph : tickPhase g k
                  = Some (if Nat.even (length ks) then Resolve else Mark)).
    { unfold tickPhase. cbv zeta.
      destruct (processInput_frame g k) as [_ Hfp].
      rewrite (processInput_no_toggle g k Hk), Hp, Hfp, Hf, <- Nat.negb_even.
      by destruct (Nat.even (length ks)). }
    split; [done|]. rewrite Update_eq. cbv zeta. rewrite Hph.
    destruct (processInput_frame g k) as [-> ->].
    rewrite (processInput_no_toggle g k Hk), Hp.
    by destruct (Nat.even (length ks)).
  - done.
  - pose proof (phases_alternate ks g0) as Halt. by rewrite Hf0 in Halt.
Qed.

Lemma ticks_alternate_resolve_mark_witness :
  ∃ g0 rnd' g,
    NewGame twos 1 1 = Ok (g0, rnd') ∧
    run g0 [noKeys; noKeys; noKeys] = Ok g ∧ Paused g = false ∧
    FeedPhase g = true ∧ tickPhase g noKeys = Some Mark.
Proof.
  assert (Hks : Forall (fun k => KeySpace k = false) [noKeys; noKeys; noKeys])
    by (repeat constructor).
  destruct (ticks_alternate_resolve_mark twos 1 1 _ ltac:(lia) ltac:(lia)
              ltac:(vm_compute; discriminate) ltac:(vm_compute; discriminate) Hks)
    as (g0 & rnd' & g & HN & Hrun & Hp & Hf & Hph & _).
  exists g0, rnd', g. split; [exact HN|]. split; [exact Hrun|].
  split; [exact Hp|]. split; [exact Hf|].
  exact (proj1 (Hph noKeys eq_refl)).
Defined.

(** C10.  [NewGame] returns whenever the height is not negative and the
    width is not negative or there are no rows, both within the length
    check of [make], and in every execution
    from the state it returns, whatever the keys: whenever a tick runs the
    mark sub-phase ([feed]) every cell is [Empty] or [Alive].  The
    sub-phases that run alternate beginning with resolve, so the first one
    is [lifeOn] and every [feed] comes right after a [lifeOn]; with at
    least one row no tick panics. *)
Theorem feed_only_runs_on_steady
  (rnd : Rand) (nColumns nRows : Z) (ks : list Keys) :
  0 <= nRows → sizeofRow * nRows <= maxAlloc →
  nRows = 0 ∨ (0 <= nColumns ∧ sizeofCell * nColumns <= maxAlloc) →
  ∃ g0 rnd',
    NewGame rnd nColumns nRows = Ok (g0, rnd') ∧
    (∀ g k, run g0 ks = Ok g → tickPhase g k = Some Mark →
       steady (Rows (GBoard g))) ∧
    alternates Resolve (phases g0 ks) ∧
    (0 < nRows → ∃ g, run g0 ks = Ok g).
Proof.
  intros Hr HrA Hc.
  destruct (NewGame_returns rnd nColumns nRows Hr HrA Hc)
    as (g0 & rnd' & HN & Hf0 & _ & _ & Hinv).
  exists g0, rnd'. split; [done|]. split; [|split].
  - intros g k Hrun Hph.
    pose proof (run_tickInv _ _ ks g0 g Hinv Hrun) as (_ & _ & Hcells).
    unfold tickPhase in Hph. cbv zeta in Hph.
    destruct (processInput_frame g k) as [_ Hfp]. rewrite Hfp in Hph.
    destruct (Paused (processInput g k)); [done|].
    destruct (FeedPhase g); [done | discriminate Hph].
  - pose proof (phases_alternate ks g0) as Halt. by rewrite Hf0 in Halt.
  - intros Hpos. apply (run_total _ _ ks g0 Hinv). lia.
Qed.

Lemma feed_only_runs_on_steady_witness :
  ∃ g0 rnd',
    NewGame twos 1 1 = Ok (g0, rnd') ∧
    (∀ g k, run g0 [noKeys] = Ok g → tickPhase g k = Some Mark →
       steady (Rows (GBoard g))) ∧
    alternates Resolve (phases g0 [noKeys]) ∧
    (0 < 1 → ∃ g, run g0 [noKeys] = Ok g).
Proof.
  exact (feed_only_runs_on_steady twos 1 1 [noKeys] ltac:(lia)
           ltac:(vm_compute; discriminate)
           ltac:(right; split; vm_compute; discriminate)).
Defined.

(** *** The blinker *)

(** C4 as written does not hold at the centre of the blinker: cell (2,2)
    has 2 live neighbours, not 1, and the mark sub-phase leaves it [Alive], not
    [Dying]. *)
Lemma blinker_centre_stays_alive :
  ∃ cb g',
    neighborCounts blinker = Ok cb ∧ cellAt cb 2 2 = 2 ∧
    specNaiveCount 5 5 blinker 2 2 = 2 ∧
    feed (gameOf blinker true) = Ok g' ∧
    cellAt (Rows (GBoard g')) 2 2 = CellAlive ∧
    cellAt (Rows (GBoard g')) 2 2 ≠ CellDying.
Proof. exists blinkerCounts, (gameOf blinkerMarked true). by vm_compute. Qed.

(** C4, amended.  On the 5x5 board with the horizontal blinker in row 2,
    columns 1-3: the counter gives the two end cells 1 live neighbour, the
    centre 2, and the cells (1,2) and (3,2) 3; one mark sub-phase makes
    the two end cells [Dying], leaves the centre [Alive], makes (1,2) and
    (3,2) [Born] and leaves every other cell [Empty]; the resolve
    sub-phase that follows leaves the vertical blinker in column 2,
    rows 1-3, and nothing else (22 empty cells, 3 filled). *)
Theorem blinker_mark_then_resolve :
  neighborCounts blinker = Ok blinkerCounts ∧
  feed (gameOf blinker false) = Ok (gameOf blinkerMarked false) ∧
  lifeOnRows blinkerMarked = Ok (blinkerVertical, 22, 3) ∧
  lifeOn (gameOf blinkerMarked true) = Ok (gameOf blinkerVertical true) ∧
  run (gameOf blinker true) [noKeys; noKeys] = Ok (gameOf blinkerVertical true).
Proof. by vm_compute. Qed.

(** *** Board creation *)

(** C6 as written does not hold: a width or a height of 0 is not
    rejected, nor is a negative width when the height is 0. *)
Lemma NewBoard_accepts_zero :
  NewBoard 0 2 = Ok (mkBoard [ []; [] ]) ∧
  NewBoard 2 0 = Ok (mkBoard []) ∧
  NewBoard (-1) 0 = Ok (mkBoard []).
Proof. by vm_compute. Qed.

(** C6, amended.  For a width and a height of at least 1 that pass the
    length check of [make] (a row of at most [maxAlloc] bytes, a row
    table of at most [maxAlloc] bytes at [sizeofRow] bytes a row)
    [NewBoard] returns a board of that many rows and columns with every
    cell [Empty].  It panics with "makeslice: len out of range" for a
    negative height, for a height that fails the length check, and, when
    the height is at least 1, for a negative width and for a width that
    fails the check.  It returns a board without cells for a height of 0
    (whatever the width) and for a width of 0. *)
Theorem NewBoard_creation (nColumns nRows : Z) :
  (1 <= nColumns → 1 <= nRows →
   sizeofCell * nColumns <= maxAlloc → sizeofRow * nRows <= maxAlloc →
     ∃ b, NewBoard nColumns nRows = Ok b ∧
       len (Rows b) = nRows ∧
       Forall (fun row : Row => len row = nColumns) (Rows b) ∧
       Forall (Forall (fun c => c = CellEmpty)) (Rows b)) ∧
  (nRows < 0 ∨ maxAlloc < sizeofRow * nRows ∨
   (1 <= nRows ∧ (nColumns < 0 ∨ maxAlloc < sizeofCell * nColumns)) →
     NewBoard nColumns nRows = Panic MakeLenOutOfRange) ∧
  (nRows = 0 → NewBoard nColumns nRows = Ok (mkBoard [])) ∧
  (1 <= nRows → sizeofRow * nRows <= maxAlloc → nColumns = 0 →
     NewBoard nColumns nRows = Ok (mkBoard (replicate (Z.to_nat nRows) []))).
Proof.
  rewrite NewBoard_eq.
  assert (Hzero : tooLong sizeofCell 0 = false) by reflexivity.
  assert (Hnone : tooLong sizeofRow 0 = false) by reflexivity.
  split; [|split; [|split]].
  - intros Hc Hr HcA HrA.
    rewrite (proj2 (tooLong_false sizeofRow nRows)) by (split; [lia | done]).
    destruct (Z.eqb_spec nRows 0); [lia|].
    rewrite (proj2 (tooLong_false sizeofCell nColumns)) by (split; [lia | done]).
    eexists. split; [done|]. cbn [Rows]. unfold emptyRows, len.
    split; [rewrite length_replicate; lia|]. split.
    + apply Forall_replicate. rewrite length_replicate. lia.
    + apply Forall_replicate, Forall_replicate. done.
  - intros Hbad.
    destruct (tooLong sizeofRow nRows) eqn:ER; [done|].
    apply tooLong_false in ER as [Hr HrA].
    destruct Hbad as [? | [? | [Hr1 Hc]]]; [lia | lia |].
    destruct (Z.eqb_spec nRows 0); [lia|].
    destruct (tooLong sizeofCell nColumns) eqn:EC; [done|].
    apply tooLong_false in EC. lia.
  - intros ->. by rewrite Hnone.
  - intros Hr HrA ->.
    rewrite (proj2 (tooLong_false sizeofRow nRows)) by (split; [lia | done]).
    destruct (Z.eqb_spec nRows 0); [lia|]. by rewrite Hzero.
Qed.

Lemma NewBoard_creation_witness :
  (∃ b, NewBoard 3 2 = Ok b ∧ len (Rows b) = 2 ∧
     Forall (fun row : Row => len row = 3) (Rows b) ∧
     Forall (Forall (fun c => c = CellEmpty)) (Rows b)) ∧
  NewBoard 1 (2 ^ 62) = Panic MakeLenOutOfRange.
Proof.
  split.
  - exact (proj1 (NewBoard_creation 3 2) ltac:(lia) ltac:(lia)
             ltac:(vm_compute; discriminate) ltac:(vm_compute; discriminate)).
  - exact (proj1 (proj2 (NewBoard_creation 1 (2 ^ 62)))
             ltac:(right; left; vm_compute; reflexivity)).
Defined.

(** *** Speed and pause *)

Lemma int_wrap_small (z : Z) : 0 <= z <= 61 → int_wrap z = z.
Proof. intros Hz. unfold int_wrap. rewrite Z.mod_small; lia. Qed.

(** C7.  [NewGame], for sizes within the length check of [make],
    returns a game whose [Speed] is 10.  From a speed in
    [1, 60] a speed-down request (the Left case of the switch) takes 1
    from [Speed] unless it is 1, and then leaves it at 1; a speed-up
    request (the Right case) adds 1 unless it is 60, and then leaves it at
    60.  [processInput] returns nothing and cannot panic, and [Speed]
    stays in [1, 60]. *)
Theorem speed_init_and_clamp
  (rnd : Rand) (nColumns nRows : Z) (g : Game) (k : Keys) :
  0 <= nRows → sizeofRow * nRows <= maxAlloc →
  nRows = 0 ∨ (0 <= nColumns ∧ sizeofCell * nColumns <= maxAlloc) →
  1 <= Speed g <= Const.MaxTPS →
  (∃ g0 rnd', NewGame rnd nColumns nRows = Ok (g0, rnd') ∧ Speed g0 = 10) ∧
  (KeySpace k = false → KeyLeft k = true →
     Speed (processInput g k) = if Speed g =? 1 then 1 else Speed g - 1) ∧
  (KeySpace k = false → KeyLeft k = false → KeyRight k = true →
     Speed (processInput g k)
     = if Speed g =? Const.MaxTPS then Const.MaxTPS else Speed g + 1) ∧
  1 <= Speed (processInput g k) <= Const.MaxTPS.
Proof.
  intros Hr HrA Hc Hs. split.
  { destruct (NewGame_returns rnd nColumns nRows Hr HrA Hc)
      as (g0 & rnd' & HN & _ & _ & H10 & _).
    by exists g0, rnd'. }
  unfold Const.MaxTPS in *.
  assert (Hdown : int_wrap (Speed g - 1) = Speed g - 1)
    by (apply int_wrap_small; lia).
  assert (Hup : int_wrap (Speed g + 1) = Speed g + 1)
    by (apply int_wrap_small; lia).
  unfold processInput. rewrite Hdown, Hup. unfold Const.MaxTPS.
  repeat split.
  - intros -> ->. cbn [Speed].
    destruct (Z.ltb_spec (Speed g - 1) 1), (Z.eqb_spec (Speed g) 1); lia.
  - intros -> -> ->. cbn [Speed].
    destruct (Z.gtb_spec (Speed g + 1) 60), (Z.eqb_spec (Speed g) 60); lia.
  - destruct (KeySpace k), (KeyLeft k), (KeyRight k); cbn [Speed];
      try destruct (Z.ltb_spec (Speed g - 1) 1);
      try destruct (Z.gtb_spec (Speed g + 1) 60); lia.
  - destruct (KeySpace k), (KeyLeft k), (KeyRight k); cbn [Speed];
      try destruct (Z.ltb_spec (Speed g - 1) 1);
      try destruct (Z.gtb_spec (Speed g + 1) 60); lia.
Qed.

Lemma speed_init_and_clamp_witness :
  (∃ g0 rnd', NewGame twos 2 3 = Ok (g0, rnd') ∧ Speed g0 = 10) ∧
  Speed (processInput slowest (mkKeys false true false)) = 1 ∧
  Speed (processInput fastest (mkKeys false false true)) = 60.
Proof.
  split; [|split].
  - exact (proj1 (speed_init_and_clamp twos 2 3 slowest noKeys
                    ltac:(lia) ltac:(vm_compute; discriminate)
                    ltac:(right; split; vm_compute; discriminate)
                    ltac:(vm_compute; split; discriminate))).
  - exact (proj1 (proj2 (speed_init_and_clamp twos 1 1 slowest
                    (mkKeys false true false)
                    ltac:(lia) ltac:(vm_compute; discriminate)
                    ltac:(right; split; vm_compute; discriminate)
                    ltac:(vm_compute; split; discriminate)))
             eq_refl eq_refl).
  - exact (proj1 (proj2 (proj2 (speed_init_and_clamp twos 1 1 fastest
                    (mkKeys false false true)
                    ltac:(lia) ltac:(vm_compute; discriminate)
                    ltac:(right; split; vm_compute; discriminate)
                    ltac:(vm_compute; split; discriminate))))
             eq_refl eq_refl eq_refl).
Defined.

(** C8 as written does not hold for the pause-toggle request: it is applied
    before the pause check, so the tick that takes it in a paused state
    already runs a sub-phase; here the grid and the phase flag both
    change. *)
Lemma unpausing_tick_runs_a_subphase :
  Paused pausedBornGame = true ∧
  Update pausedBornGame (mkKeys true false false)
  = Ok (mkGame (mkBoard [ [1] ]) true false 10) ∧
  Rows (GBoard pausedBornGame) ≠ [ [1] ] ∧
  FeedPhase pausedBornGame ≠ true.
Proof. by vm_compute. Qed.

(** C8, amended.  In every state with the paused flag set, a tick whose
    input does not toggle pause returns, runs no sub-phase and leaves the
    grid, the phase flag and the paused flag unchanged, while a speed
    request is applied (one step, within [1, 60]).  A pause-toggle request
    is applied too: it clears the flag before the pause check, and that
    tick runs the sub-phase that the phase flag announces. *)
Theorem paused_tick (g : Game) (k : Keys) :
  Paused g = true →
  (KeySpace k = false →
     Update g k = Ok (processInput g k) ∧
     tickPhase g k = None ∧
     GBoard (processInput g k) = GBoard g ∧
     FeedPhase (processInput g k) = FeedPhase g ∧
     Paused (processInput g k) = true ∧
     (1 <= Speed g <= Const.MaxTPS → KeyLeft k = true →
        Speed (processInput g k) = Z.max 1 (Speed g - 1)) ∧
     (1 <= Speed g <= Const.MaxTPS → KeyLeft k = false → KeyRight k = true →
        Speed (processInput g k) = Z.min Const.MaxTPS (Speed g + 1))) ∧
  (KeySpace k = true →
     processInput g k = mkGame (GBoard g) (FeedPhase g) false (Speed g) ∧
     tickPhase g k = Some (phaseOf (FeedPhase g)) ∧
     Update g k = (if FeedPhase g then feed else lifeOn)
                    (mkGame (GBoard g) (negb (FeedPhase g)) false (Speed g))).
Proof.
  intros Hp. split.
  - intros Hk. destruct (processInput_frame g k) as [Hb Hf].
    pose proof (processInput_no_toggle g k Hk) as Hp'. rewrite Hp in Hp'.
    split; [unfold Update; by rewrite Hp'|].
    split; [unfold tickPhase; by rewrite Hp'|].
    split; [done|]. split; [done|]. split; [done|].
    unfold Const.MaxTPS. split.
    + intros Hs Hl. unfold processInput. rewrite Hk, Hl. cbn [Speed].
      rewrite int_wrap_small by lia.
      destruct (Z.ltb_spec (Speed g - 1) 1); lia.
    + intros Hs Hl Hr. unfold processInput. rewrite Hk, Hl, Hr. cbn [Speed].
      rewrite int_wrap_small by lia. unfold Const.MaxTPS.
      destruct (Z.gtb_spec (Speed g + 1) 60); lia.
  - intros Hk.
    assert (HpI : processInput g k = mkGame (GBoard g) (FeedPhase g) false (Speed g)).
    { unfold processInput. by rewrite Hk, Hp. }
    split; [done|]. unfold tickPhase, Update. rewrite HpI. cbn.
    split; [done|]. by destruct (FeedPhase g).
Qed.

Lemma paused_tick_witness :
  Paused pausedBornGame = true ∧
  Update pausedBornGame (mkKeys false false true)
  = Ok (mkGame (mkBoard [ [2] ]) false true 11).
Proof.
  split; [reflexivity|].
  exact (proj1 (proj1 (paused_tick pausedBornGame (mkKeys false false true)
                         eq_refl) eq_refl)).
Defined.


(** ** Further properties: rendering and sizing *)

Lemma index_Colors_valid (c : Cell) :
  validCell c → index Colors c = Ok (colorOf c).
Proof.
  intros Hc.
  destruct (index_in_range Colors c ltac:(by (change (len Colors) with 4)))
    as (clr & -> & Hl).
  unfold colorOf. by rewrite Hl.
Qed.

Lemma index_Colors_invalid (c : Cell) :
  ¬ validCell c → index Colors c = Panic IndexOutOfRange.
Proof.
  intros Hc. unfold index. destruct (Z.ltb_spec c 0) as [|Hc0]; [done|].
  rewrite lookup_ge_None_2; [done|].
  change (length Colors) with 4%nat. unfold validCell in Hc. lia.
Qed.

Lemma drawRow_spec (y : Z) (row : Row) :
  Forall validCell row →
  ∀ (x0 : nat) (screen : list SetCall),
    rangeLoop (fun x (cell : Cell) (screen : list SetCall) =>
        clr ← index Colors cell; Ok (screen ++ [(x, y, clr)]))
      (Z.of_nat x0) row screen
    = Ok (screen ++ imap (fun x c => (Z.of_nat (x0 + x), y, colorOf c)) row).
Proof.
  intros Hv. induction Hv as [|c row Hc _ IH]; intros x0 screen.
  - cbn. by rewrite app_nil_r.
  - cbn [rangeLoop]. rewrite (index_Colors_valid c Hc), !bind_Ok.
    replace (Z.of_nat x0 + 1) with (Z.of_nat (S x0)) by lia.
    rewrite IH, imap_cons, <- app_assoc. cbn [app].
    rewrite Nat.add_0_r. do 3 f_equal.
    apply imap_ext. intros x c' _. cbn. do 3 f_equal. lia.
Qed.

Lemma drawRows_spec (rows : list Row) :
  valid rows →
  ∀ (y0 : nat) (screen : list SetCall),
    rangeLoop (fun y (row : Row) (screen : list SetCall) =>
        rangeLoop (fun x (cell : Cell) (screen : list SetCall) =>
            clr ← index Colors cell; Ok (screen ++ [(x, y, clr)]))
          0 row screen)
      (Z.of_nat y0) rows screen
    = Ok (screen ++ concat (imap (fun y => drawnRow (y0 + y)) rows)).
Proof.
  intros Hv. induction Hv as [|row rows Hrow _ IH]; intros y0 screen.
  - cbn. by rewrite app_nil_r.
  - cbn [rangeLoop].
    rewrite (drawRow_spec (Z.of_nat y0) row Hrow 0), bind_Ok.
    replace (Z.of_nat y0 + 1) with (Z.of_nat (S y0)) by lia.
    rewrite IH, imap_cons, <- app_assoc. cbn [concat].
    rewrite Nat.add_0_r. f_equal. f_equal. f_equal. f_equal.
    apply imap_ext. intros y r _. cbn. f_equal. lia.
Qed.

Lemma drawn_length (rows : list Row) : length (drawn rows) = cellCount rows.
Proof.
  unfold drawn, cellCount.
  assert (Hgen : ∀ y0 : nat,
    length (concat (imap (fun y => drawnRow (y0 + y)) rows))
    = length (concat rows)); [|exact (Hgen 0%nat)].
  induction rows as [|row rows IH]; intros y0; [done|].
  rewrite imap_cons. cbn [concat]. rewrite !length_app.
  unfold drawnRow at 1. rewrite length_imap. f_equal.
  rewrite <- (IH (S y0)). do 2 f_equal.
  apply imap_ext. intros y r _. cbn. f_equal. lia.
Qed.

(** X1.  On a board whose cells all hold one of the four cell values,
    whatever its shape, [Draw] returns and makes exactly one call of
    [screen.Set] per cell, row by row and left to right, with [x] the
    column, [y] the row and the colour [Colors[cell]]; the calls recorded
    before are kept. *)
Theorem Draw_valid (g : Game) (screen : list SetCall) :
  valid (Rows (GBoard g)) →
  Draw g screen = Ok (screen ++ drawn (Rows (GBoard g))) ∧
  length (drawn (Rows (GBoard g))) = cellCount (Rows (GBoard g)) ∧
  ∀ (x y : nat) row c,
    Rows (GBoard g) !! y = Some row → row !! x = Some c →
    ∃ clr, Colors !! Z.to_nat c = Some clr ∧
      (Z.of_nat x, Z.of_nat y, clr) ∈ drawn (Rows (GBoard g)).
Proof.
  intros Hv. split; [|split].
  - unfold Draw. exact (drawRows_spec _ Hv 0 screen).
  - apply drawn_length.
  - intros x y row c Hy Hx.
    pose proof (proj1 (Forall_lookup _ _) Hv _ _ Hy) as Hrow.
    pose proof (proj1 (Forall_lookup _ _) Hrow _ _ Hx) as Hc.
    destruct (index_in_range Colors c ltac:(by (change (len Colors) with 4)))
      as (clr & _ & Hl).
    exists clr. split; [done|]. unfold drawn.
    apply list_elem_of_In, in_concat. exists (drawnRow y row). split.
    + apply list_elem_of_In, list_elem_of_lookup. exists y.
      by rewrite list_lookup_imap, Hy.
    + unfold drawnRow. apply list_elem_of_In, list_elem_of_lookup. exists x.
      rewrite list_lookup_imap, Hx. cbn. unfold colorOf. by rewrite Hl.
Qed.

Lemma Draw_valid_witness :
  valid blinkerMarked ∧
  Draw (gameOf blinkerMarked false) []
  = Ok ([] ++ drawn blinkerMarked).
Proof.
  assert (Hv : valid blinkerMarked).
  { unfold valid. apply (bool_decide_unpack _). vm_compute. exact I. }
  split; [exact Hv|].
  exact (proj1 (Draw_valid (gameOf blinkerMarked false) [] Hv)).
Defined.

(** X2.  On a board that holds a cell outside the four cell values,
    whatever its shape, [Draw] does not return: [Colors[cell]] is out of
    range. *)
Theorem Draw_panics_on_invalid (g : Game) (screen : list SetCall) :
  Exists (Exists (fun c => ¬ validCell c)) (Rows (GBoard g)) →
  Draw g screen = Panic IndexOutOfRange.
Proof.
  intros Hex. unfold Draw.
  destruct (rangeLoop_panic_inv
    (fun y (row : Row) (screen : list SetCall) =>
        rangeLoop (fun x (cell : Cell) (screen : list SetCall) =>
            clr ← index Colors cell; Ok (screen ++ [(x, y, clr)]))
          0 row screen)
    (fun _ _ => True) (fun p => p = IndexOutOfRange)
    (Exists (fun c => ¬ validCell c))
    (Rows (GBoard g)) 0 screen I) as (p & -> & ->); [|done|done].
  intros k row s Hk _.
  destruct (Forall_Exists_dec validCell (fun c => ¬ validCell c)
              validCell_dec row) as [Hgood | Hbad].
  - left. split.
    + intros HE. apply Exists_exists in HE as (c & Hc & Hn).
      apply Hn. rewrite Forall_forall in Hgood. by apply Hgood.
    + rewrite (drawRow_spec _ row Hgood 0). by eexists.
  - right.
    destruct (rangeLoop_panic_inv
      (fun x (cell : Cell) (screen : list SetCall) =>
          clr ← index Colors cell; Ok (screen ++ [(x, 0 + Z.of_nat k, clr)]))
      (fun _ _ => True) (fun p => p = IndexOutOfRange)
      (fun c => ¬ validCell c) row 0 s I) as (p & Hp & ->); [|done|by eexists].
    intros x c t Hx _. destruct (decide (validCell c)) as [Hc | Hc].
    + left. split; [tauto|]. rewrite (index_Colors_valid c Hc). by eexists.
    + right. rewrite (index_Colors_invalid c Hc). by eexists.
Qed.

Lemma Draw_panics_on_invalid_witness :
  Exists (Exists (fun c => ¬ validCell c)) [ [0; 1]; [4; 0] ] ∧
  Draw (gameOf [ [0; 1]; [4; 0] ] false) [] = Panic IndexOutOfRange.
Proof.
  assert (Hex : Exists (Exists (fun c => ¬ validCell c)) [ [0; 1]; [4; 0] ]).
  { apply Exists_cons_tl, Exists_cons_hd, Exists_cons_hd.
    unfold validCell. lia. }
  split; [exact Hex|].
  exact (Draw_panics_on_invalid (gameOf [ [0; 1]; [4; 0] ] false) [] Hex).
Defined.

(** ** Further properties: what every execution keeps *)

Lemma Update_speed (g g' : Game) (k : Keys) :
  Update g k = Ok g' → Speed g' = Speed (processInput g k).
Proof.
  unfold Update. destruct (Paused (processInput g k)); [by intros [= <-]|].
  destruct (FeedPhase (processInput g k)); intros HU.
  - by apply feed_Ok_inv in HU as (rows' & _ & ->).
  - by apply lifeOn_Ok_inv in HU as (_ & _ & ->).
Qed.

Lemma processInput_speed_range (g : Game) (k : Keys) :
  1 <= Speed g <= Const.MaxTPS → 1 <= Speed (processInput g k) <= Const.MaxTPS.
Proof.
  unfold Const.MaxTPS. intros Hs. unfold processInput.
  rewrite !int_wrap_small by lia. unfold Const.MaxTPS.
  destruct (KeySpace k), (KeyLeft k), (KeyRight k); cbn [Speed];
    try destruct (Z.ltb_spec (Speed g - 1) 1);
    try destruct (Z.gtb_spec (Speed g + 1) 60); lia.
Qed.

Lemma run_speed_range (ks : list Keys) (g g' : Game) :
  1 <= Speed g <= Const.MaxTPS → run g ks = Ok g' →
  1 <= Speed g' <= Const.MaxTPS.
Proof.
  revert g. induction ks as [|k ks IH]; intros g Hs Hrun.
  - by injection Hrun as <-.
  - cbn in Hrun. apply bind_Ok_inv in Hrun as (g1 & HU & Hrun).
    apply (IH g1); [|done]. rewrite (Update_speed g g1 k HU).
    by apply processInput_speed_range.
Qed.

(** X3.  For the sizes at which [NewGame] returns (a height that is not
    negative, a width that is not negative unless there are no rows, both
    within the length check of [make]), in every execution from the
    state it returns, whatever the keys and however long, [Speed] stays
    within [1, MaxTPS]. *)
Theorem speed_stays_in_range
  (rnd : Rand) (nColumns nRows : Z) :
  0 <= nRows → sizeofRow * nRows <= maxAlloc →
  nRows = 0 ∨ (0 <= nColumns ∧ sizeofCell * nColumns <= maxAlloc) →
  ∃ g0 rnd',
    NewGame rnd nColumns nRows = Ok (g0, rnd') ∧
    ∀ ks g, run g0 ks = Ok g → 1 <= Speed g <= Const.MaxTPS.
Proof.
  intros Hr HrA Hc.
  destruct (NewGame_returns rnd nColumns nRows Hr HrA Hc)
    as (g0 & rnd' & HN & _ & _ & H10 & _).
  exists g0, rnd'. split; [done|]. intros ks g Hrun.
  apply (run_speed_range ks g0); [|done]. rewrite H10. by compute.
Qed.

Lemma speed_stays_in_range_witness :
  ∃ g0 rnd',
    NewGame twos 2 2 = Ok (g0, rnd') ∧
    ∀ ks g, run g0 ks = Ok g → 1 <= Speed g <= Const.MaxTPS.
Proof.
  exact (speed_stays_in_range twos 2 2 ltac:(lia)
           ltac:(vm_compute; discriminate)
           ltac:(right; split; vm_compute; discriminate)).
Defined.

Lemma Layout_tickInv (W H : nat) (g : Game) (oW oH : Z) :
  tickInv W H g → (0 < H)%nat →
  Layout g oW oH = Ok (Z.of_nat W, Z.of_nat H).
Proof.
  intros (Hlen & Hr & _) Hpos. unfold Layout.
  destruct (index_row W (Rows (GBoard g)) 0 Hr ltac:(unfold len; lia))
    as (row0 & -> & Hl0 & _).
  rewrite bind_Ok. unfold len. by rewrite Hl0, Hlen.
Qed.

(** X4.  The dimensions of the board never change: after [NewGame] with
    at least one row and sizes within the length check of [make], in
    every execution, whatever the keys, [Layout]
    returns the width and the height that [NewGame] was given, whatever
    the outside size it is passed. *)
Theorem Layout_constant
  (rnd : Rand) (nColumns nRows : Z) :
  0 <= nColumns → 0 < nRows →
  sizeofCell * nColumns <= maxAlloc → sizeofRow * nRows <= maxAlloc →
  ∃ g0 rnd',
    NewGame rnd nColumns nRows = Ok (g0, rnd') ∧
    ∀ ks g oW oH, run g0 ks = Ok g →
      Layout g oW oH = Ok (nColumns, nRows).
Proof.
  intros Hc Hr HcA HrA.
  destruct (NewGame_returns rnd nColumns nRows ltac:(lia) HrA ltac:(by right))
    as (g0 & rnd' & HN & _ & _ & _ & Hinv).
  exists g0, rnd'. split; [done|]. intros ks g oW oH Hrun.
  rewrite (Layout_tickInv _ _ g oW oH (run_tickInv _ _ ks g0 g Hinv Hrun))
    by lia.
  by rewrite !Z2Nat.id by lia.
Qed.

Lemma Layout_constant_witness :
  ∃ g0 rnd',
    NewGame twos 3 2 = Ok (g0, rnd') ∧
    ∀ ks g oW oH, run g0 ks = Ok g → Layout g oW oH = Ok (3, 2).
Proof.
  exact (Layout_constant twos 3 2 ltac:(lia) ltac:(lia)
           ltac:(vm_compute; discriminate) ltac:(vm_compute; discriminate)).
Defined.

Lemma tickInv_valid (W H : nat) (g : Game) :
  tickInv W H g → valid (Rows (GBoard g)).
Proof.
  intros (_ & _ & Hcells).
  destruct (FeedPhase g); [by apply steady_valid | done].
Qed.

(** X5.  Rendering never panics: after [NewGame], for the sizes at
    which it returns, in every execution,
    whatever the keys, every cell holds one of the four cell values, so
    [Draw] returns and makes one call of [screen.Set] per cell. *)
Theorem Draw_never_panics
  (rnd : Rand) (nColumns nRows : Z) :
  0 <= nRows → sizeofRow * nRows <= maxAlloc →
  nRows = 0 ∨ (0 <= nColumns ∧ sizeofCell * nColumns <= maxAlloc) →
  ∃ g0 rnd',
    NewGame rnd nColumns nRows = Ok (g0, rnd') ∧
    ∀ ks g screen, run g0 ks = Ok g →
      valid (Rows (GBoard g)) ∧
      Draw g screen = Ok (screen ++ drawn (Rows (GBoard g))).
Proof.
  intros Hr HrA Hc.
  destruct (NewGame_returns rnd nColumns nRows Hr HrA Hc)
    as (g0 & rnd' & HN & _ & _ & _ & Hinv).
  exists g0, rnd'. split; [done|]. intros ks g screen Hrun.
  pose proof (tickInv_valid _ _ g (run_tickInv _ _ ks g0 g Hinv Hrun)) as Hv.
  split; [done|]. unfold Draw. exact (drawRows_spec _ Hv 0 screen).
Qed.

Lemma Draw_never_panics_witness :
  ∃ g0 rnd',
    NewGame twos 2 2 = Ok (g0, rnd') ∧
    ∀ ks g screen, run g0 ks = Ok g →
      valid (Rows (GBoard g)) ∧
      Draw g screen = Ok (screen ++ drawn (Rows (GBoard g))).
Proof.
  exact (Draw_never_panics twos 2 2 ltac:(lia)
           ltac:(vm_compute; discriminate)
           ltac:(right; split; vm_compute; discriminate)).
Defined.

Lemma Update_unpaused_eq (g : Game) (k : Keys) :
  Paused g = false → KeySpace k = false →
  Update g k = (if FeedPhase g then feed else lifeOn)
                 (mkGame (GBoard g) (negb (FeedPhase g)) false
                         (Speed (processInput g k))).
Proof.
  intros Hp Hk. unfold Update.
  destruct (processInput_frame g k) as [-> ->].
  rewrite (processInput_no_toggle g k Hk), Hp.
  by destruct (FeedPhase g).
Qed.

(** X6.  A height of 0 is accepted by [NewGame] (whatever the width) but
    the game cannot run: the board has no rows, [Layout] panics on
    [Rows[0]], the first tick (resolve) returns, and the second tick
    (mark) panics on [rows[0]]; [Draw] returns without a call. *)
Theorem zero_rows_game (rnd : Rand) (nColumns : Z) :
  ∃ g0 rnd',
    NewGame rnd nColumns 0 = Ok (g0, rnd') ∧
    Rows (GBoard g0) = [] ∧
    (∀ oW oH, Layout g0 oW oH = Panic IndexOutOfRange) ∧
    (∀ screen, Draw g0 screen = Ok screen) ∧
    (∀ k1, KeySpace k1 = false → ∃ g1, Update g0 k1 = Ok g1) ∧
    (∀ k1 k2, KeySpace k1 = false → KeySpace k2 = false →
       run g0 [k1; k2] = Panic IndexOutOfRange).
Proof.
  destruct (NewGame_returns rnd nColumns 0 ltac:(lia) ltac:(by vm_compute)
              ltac:(by left))
    as (g0 & rnd' & HN & Hf0 & Hp0 & _ & (Hlen & _ & _)).
  exists g0, rnd'. split; [done|].
  assert (Hrows : Rows (GBoard g0) = []) by (by apply nil_length_inv).
  assert (HU : ∀ k1, KeySpace k1 = false →
    Update g0 k1 = Ok (mkGame (mkBoard []) true false
                              (Speed (processInput g0 k1)))).
  { intros k1 Hk1. rewrite (Update_unpaused_eq g0 k1 Hp0 Hk1), Hf0.
    unfold lifeOn. cbn [GBoard negb]. by rewrite Hrows. }
  split; [done|]. split; [|split; [|split]].
  - intros oW oH. unfold Layout. by rewrite Hrows.
  - intros screen. unfold Draw. by rewrite Hrows.
  - intros k1 Hk1. rewrite (HU k1 Hk1). by eexists.
  - intros k1 k2 Hk1 Hk2. cbn [run]. rewrite (HU k1 Hk1), bind_Ok.
    by rewrite Update_unpaused_eq by done.
Qed.

(** X7.  The phase flag is toggled exactly once by every tick that runs
    a sub-phase and by nothing else: after a run that returns, from any
    state, [FeedPhase] differs from its value at the start exactly when
    the number of sub-phases run is odd. *)
Theorem FeedPhase_parity (ks : list Keys) (g0 g : Game) :
  run g0 ks = Ok g →
  FeedPhase g = xorb (FeedPhase g0) (Nat.odd (length (phases g0 ks))).
Proof.
  revert g0. induction ks as [|k ks IH]; intros g0 Hrun.
  - injection Hrun as <-. cbn. by rewrite xorb_false_r.
  - cbn [run] in Hrun. apply bind_Ok_inv in Hrun as (g1 & HU & Hrun).
    cbn [phases]. rewrite HU. rewrite (IH g1 Hrun).
    apply Update_flags in HU as [_ Hf1]. rewrite Hf1.
    unfold tickPhase. cbv zeta.
    destruct (Paused (processInput g0 k)); [done|].
    change (length (option_list (Some (phaseOf (FeedPhase (processInput g0 k))))
                    ++ phases g1 ks))
      with (S (length (phases g1 ks))).
    rewrite Nat.odd_succ, <- Nat.negb_odd.
    by destruct (FeedPhase g0), (Nat.odd (length (phases g1 ks))).
Qed.

Lemma FeedPhase_parity_witness :
  run bornGame [noKeys; mkKeys true false false; noKeys]
  = Ok (mkGame (mkBoard [ [1] ]) true true 10) ∧
  FeedPhase (mkGame (mkBoard [ [1] ]) true true 10)
  = xorb (FeedPhase bornGame)
      (Nat.odd (length (phases bornGame
                          [noKeys; mkKeys true false false; noKeys]))).
Proof.
  assert (Hrun : run bornGame [noKeys; mkKeys true false false; noKeys]
                 = Ok (mkGame (mkBoard [ [1] ]) true true 10))
    by (vm_compute; reflexivity).
  split; [exact Hrun|].
  exact (FeedPhase_parity _ bornGame _ Hrun).
Defined.

(** X8.  While the game is paused and pause is not toggled, a run of any
    number of ticks returns, runs no sub-phase and leaves the board, the
    phase flag and the paused flag as they were, whatever the board
    holds. *)
Theorem paused_run_frozen (ks : list Keys) (g : Game) :
  Paused g = true → Forall (fun k => KeySpace k = false) ks →
  ∃ g', run g ks = Ok g' ∧
    GBoard g' = GBoard g ∧ FeedPhase g' = FeedPhase g ∧ Paused g' = true ∧
    phases g ks = [].
Proof.
  revert g. induction ks as [|k ks IH]; intros g Hp Hks.
  - by exists g.
  - apply Forall_cons in Hks as [Hk Hks].
    destruct (processInput_frame g k) as [Hb Hf].
    pose proof (processInput_no_toggle g k Hk) as Hp'. rewrite Hp in Hp'.
    assert (HU : Update g k = Ok (processInput g k))
      by (unfold Update; by rewrite Hp').
    destruct (IH (processInput g k) Hp' Hks) as (g' & Hrun & Hb' & Hf' & Hp'' & Hph).
    exists g'. cbn [run phases]. rewrite HU, bind_Ok.
    split; [done|]. split; [congruence|]. split; [congruence|].
    split; [done|]. unfold tickPhase. cbv zeta. by rewrite Hp', Hph.
Qed.

Lemma paused_run_frozen_witness :
  ∃ g', run pausedBornGame [noKeys; mkKeys false false true; noKeys] = Ok g' ∧
    GBoard g' = GBoard pausedBornGame ∧
    FeedPhase g' = FeedPhase pausedBornGame ∧ Paused g' = true ∧
    phases pausedBornGame [noKeys; mkKeys false false true; noKeys] = [].
Proof.
  exact (paused_run_frozen [noKeys; mkKeys false false true; noKeys]
           pausedBornGame eq_refl ltac:(repeat constructor)).
Defined.

(** ** Further properties: the resolve pass *)

Lemma cellAt_resolveRows (rows : list Row) (i j : Z) :
  cellAt (resolveRows rows) i j = resolve (cellAt rows i j).
Proof.
  unfold cellAt, resolveRows, resolveRow, getZ.
  rewrite list_lookup_fmap. destruct (rows !! Z.to_nat i) as [row|]; cbn.
  - rewrite list_lookup_fmap. by destruct (row !! Z.to_nat j).
  - by rewrite lookup_nil.
Qed.

Lemma resolveRows_shape (rows : list Row) :
  length <$> resolveRows rows = length <$> rows.
Proof.
  unfold resolveRows. rewrite <- list_fmap_compose.
  apply list_fmap_ext. intros i row _. cbn. unfold resolveRow.
  by rewrite length_fmap.
Qed.

(** X9.  On a board of any shape whose cells all hold one of the four
    cell values, the resolve sub-phase returns, keeps the shape and the
    flags, turns [Empty] and [Dying] into [Empty] and [Born] and [Alive]
    into [Alive] at every cell, so that no [Born] or [Dying] cell is
    left, and running it again changes nothing. *)
Theorem lifeOn_collapses (g : Game) :
  let rows := Rows (GBoard g) in
  valid rows →
  ∃ g', lifeOn g = Ok g' ∧
    FeedPhase g' = FeedPhase g ∧ Paused g' = Paused g ∧ Speed g' = Speed g ∧
    length <$> Rows (GBoard g') = length <$> rows ∧
    (∀ i j, cellAt (Rows (GBoard g')) i j = resolve (cellAt rows i j)) ∧
    steady (Rows (GBoard g')) ∧
    lifeOn g' = Ok g'.
Proof.
  intros rows Hv. rewrite (lifeOn_resolve g Hv). fold rows.
  eexists. split; [done|]. cbn [FeedPhase Paused Speed GBoard Rows].
  split; [done|]. split; [done|]. split; [done|].
  split; [apply resolveRows_shape|].
  split; [apply cellAt_resolveRows|].
  split; [apply resolve_rows_steady|].
  rewrite lifeOn_resolve by (apply steady_valid, resolve_rows_steady).
  cbn [GBoard Rows FeedPhase Paused Speed].
  by rewrite (resolve_rows_id _ (resolve_rows_steady rows)).
Qed.

Lemma lifeOn_collapses_witness :
  valid blinkerMarked ∧
  ∃ g', lifeOn (gameOf blinkerMarked true) = Ok g' ∧
    steady (Rows (GBoard g')) ∧ lifeOn g' = Ok g'.
Proof.
  assert (Hv : valid blinkerMarked).
  { unfold valid. apply (bool_decide_unpack _). vm_compute. exact I. }
  split; [exact Hv|].
  destruct (lifeOn_collapses (gameOf blinkerMarked true) Hv)
    as (g' & Hg' & _ & _ & _ & _ & _ & Hs & Hid).
  exists g'. split; [exact Hg'|]. split; [exact Hs | exact Hid].
Defined.

Lemma emptyIn_snoc (l : Row) (c : Cell) :
  emptyIn (l ++ [c])
  = emptyIn l + (if (c =? CellEmpty) || (c =? CellDying) then 1 else 0).
Proof.
  unfold emptyIn, len. rewrite filter_app, length_app.
  destruct (Z.eqb_spec c CellEmpty) as [->|H0].
  { rewrite filter_cons_True by (by left). cbn. lia. }
  destruct (Z.eqb_spec c CellDying) as [->|H3].
  { rewrite filter_cons_True by (by right). cbn. lia. }
  rewrite filter_cons_False by (by intros [? | ?]). cbn. lia.
Qed.

Lemma filledIn_snoc (l : Row) (c : Cell) :
  filledIn (l ++ [c])
  = filledIn l + (if (c =? CellBorn) || (c =? CellAlive) then 1 else 0).
Proof.
  unfold filledIn, len. rewrite filter_app, length_app.
  destruct (Z.eqb_spec c CellBorn) as [->|H0].
  { rewrite filter_cons_True by (by left). cbn. lia. }
  destruct (Z.eqb_spec c CellAlive) as [->|H3].
  { rewrite filter_cons_True by (by right). cbn. lia. }
  rewrite filter_cons_False by (by intros [? | ?]). cbn. lia.
Qed.

Lemma emptyIn_app (l1 l2 : Row) : emptyIn (l1 ++ l2) = emptyIn l1 + emptyIn l2.
Proof. unfold emptyIn, len. rewrite filter_app, length_app. lia. Qed.

Lemma filledIn_app (l1 l2 : Row) : filledIn (l1 ++ l2) = filledIn l1 + filledIn l2.
Proof. unfold filledIn, len. rewrite filter_app, length_app. lia. Qed.

Lemma lifeOnRow_counts (i : Z) (row : Row) (empty filled : Z) :
  Forall validCell row →
  lifeOnRow i row empty filled
  = Ok (resolveRow row, empty + emptyIn row, filled + filledIn row).
Proof.
  intros Hv. unfold lifeOnRow.
  loop_inv (fun (k : nat) (s : Row * Z * Z) =>
    length s.1.1 = length row ∧
    (∀ j : nat, s.1.1 !! j = if decide (j < k)%nat
                             then resolve <$> row !! j else row !! j) ∧
    s.1.2 = empty + emptyIn (take k row) ∧
    s.2 = filled + filledIn (take k row)).
  - intros ([[r e] f] & -> & Hlen & Hall & He & Hf). cbn in Hlen, Hall, He, Hf.
    rewrite firstn_all in He, Hf. subst e f. do 3 f_equal.
    apply list_eq. intros j. unfold resolveRow.
    rewrite Hall, list_lookup_fmap. destruct (decide (j < length row)%nat); [done|].
    by rewrite lookup_ge_None_2 by lia.
  - cbn. split; [done|]. split; [|split].
    + intros j. destruct (decide (j < 0)%nat); [lia | done].
    + rewrite take_0. change (emptyIn []) with 0. lia.
    + rewrite take_0. change (filledIn []) with 0. lia.
  - intros k c [[r e] f] Hk (Hlen & Hall & He & Hf). cbn in Hlen, Hall, He, Hf.
    pose proof (lookup_lt_Some _ _ _ Hk) as Hkl.
    pose proof (proj1 (Forall_lookup _ _) Hv _ _ Hk) as Hc.
    rewrite Z.add_0_l, (take_S_r _ _ _ Hk), emptyIn_snoc, filledIn_snoc.
    rewrite !store_insert by lia. rewrite !bind_Ok.
    assert (Hres : ∀ j : nat,
      <[k := resolve c]> r !! j
      = if decide (j < S k)%nat then resolve <$> row !! j else row !! j).
    { intros j. destruct (decide (j = k)) as [->|Hne].
      - rewrite list_lookup_insert_eq by lia.
        destruct (decide (k < S k)%nat); [|lia]. by rewrite Hk.
      - rewrite list_lookup_insert_ne by done. rewrite Hall.
        destruct (decide (j < k)%nat), (decide (j < S k)%nat); (done || lia). }
    unfold resolve in Hres.
    destruct ((c =? CellEmpty) || (c =? CellDying)) eqn:E0.
    + assert (Hx : (c =? CellBorn) || (c =? CellAlive) = false).
      { apply orb_true_iff in E0 as [E | E]; apply Z.eqb_eq in E; by subst c. }
      rewrite Hx. eexists. split; [done|]. cbn.
      split; [by rewrite length_insert|]. split; [done|]. split; lia.
    + destruct ((c =? CellBorn) || (c =? CellAlive)) eqn:E1.
      * eexists. split; [done|]. cbn.
        split; [by rewrite length_insert|]. split; [done|]. split; lia.
      * unfold validCell, CellBorn, CellAlive, CellEmpty, CellDying in *.
        apply orb_false_iff in E0 as [E3 E4]. apply orb_false_iff in E1 as [E1 E2].
        apply Z.eqb_neq in E1, E2, E3, E4. lia.
Qed.

Lemma lifeOnRows_counts (rows : list Row) :
  valid rows →
  lifeOnRows rows
  = Ok (resolveRows rows, emptyIn (concat rows), filledIn (concat rows)).
Proof.
  intros Hv. unfold lifeOnRows.
  loop_inv (fun (k : nat) (s : list Row * Z * Z) =>
    length s.1.1 = length rows ∧
    (∀ m : nat, s.1.1 !! m = if decide (m < k)%nat
                             then resolveRow <$> rows !! m else rows !! m) ∧
    s.1.2 = emptyIn (concat (take k rows)) ∧
    s.2 = filledIn (concat (take k rows))).
  - intros ([[rs e] f] & -> & Hlen & Hall & He & Hf). cbn in Hlen, Hall, He, Hf.
    rewrite firstn_all in He, Hf. subst e f. do 3 f_equal.
    apply list_eq. intros m. unfold resolveRows.
    rewrite Hall, list_lookup_fmap. destruct (decide (m < length rows)%nat); [done|].
    by rewrite lookup_ge_None_2 by lia.
  - cbn. split; [done|]. split; [|done].
    intros m. destruct (decide (m < 0)%nat); [lia | done].
  - intros k row [[rs e] f] Hk (Hlen & Hall & He & Hf). cbn in Hlen, Hall, He, Hf.
    pose proof (lookup_lt_Some _ _ _ Hk) as Hkl.
    pose proof (proj1 (Forall_lookup _ _) Hv _ _ Hk) as Hrow.
    rewrite (lifeOnRow_counts (0 + Z.of_nat k) row e f Hrow).
    rewrite bind_Ok, Z.add_0_l, store_insert by lia. rewrite bind_Ok.
    eexists. split; [done|]. cbn. split; [by rewrite length_insert|].
    rewrite (take_S_r _ _ _ Hk), concat_app, emptyIn_app, filledIn_app.
    cbn [concat]. rewrite app_nil_r. split; [|split; congruence].
    intros m. destruct (decide (m = k)) as [->|Hne].
    + rewrite list_lookup_insert_eq by lia.
      destruct (decide (k < S k)%nat); [|lia]. by rewrite Hk.
    + rewrite list_lookup_insert_ne by done. rewrite Hall.
      destruct (decide (m < k)%nat), (decide (m < S k)%nat); (done || lia).
Qed.

Lemma emptyIn_filledIn_total (l : Row) :
  Forall validCell l →
  emptyIn l + filledIn l = len l ∧
  emptyIn l = len (filter (fun c => c = CellEmpty) (resolve <$> l)) ∧
  filledIn l = len (filter (fun c => c = CellAlive) (resolve <$> l)).
Proof.
  intros Hv. induction Hv as [|c l Hc _ (IH1 & IH2 & IH3)]; [done|].
  change (c :: l) with ([c] ++ l).
  rewrite emptyIn_app, filledIn_app, fmap_app, !filter_app.
  pose proof (emptyIn_snoc [] c) as He. pose proof (filledIn_snoc [] c) as Hf.
  change ([] ++ [c]) with [c] in He, Hf.
  change (emptyIn []) with 0 in He. change (filledIn []) with 0 in Hf.
  rewrite He, Hf. unfold len in *. rewrite !length_app.
  assert (Hcases : c = 0 ∨ c = 1 ∨ c = 2 ∨ c = 3)
    by (unfold validCell in Hc; lia).
  destruct Hcases as [-> | [-> | [-> | ->]]];
    repeat match goal with
    | |- context [length (filter ?P (resolve <$> [?c]))] =>
        let v := eval vm_compute in (length (filter P (resolve <$> [c]))) in
        change (length (filter P (resolve <$> [c]))) with v
    end;
    cbn [Z.eqb orb Pos.eqb CellEmpty CellDying CellBorn CellAlive length];
    (split; [|split]); lia.
Qed.

(** X10.  On a board of any shape whose cells all hold one of the four
    cell values, the two counters that [lifeOn] logs are the number of
    cells it leaves [Empty] and the number it leaves [Alive], and they
    add up to the number of cells. *)
Theorem lifeOn_counters (rows : list Row) :
  valid rows →
  ∃ rows' empty filled,
    lifeOnRows rows = Ok (rows', empty, filled) ∧
    empty + filled = Z.of_nat (cellCount rows) ∧
    empty = len (filter (fun c => c = CellEmpty) (concat rows')) ∧
    filled = len (filter (fun c => c = CellAlive) (concat rows')).
Proof.
  intros Hv. rewrite (lifeOnRows_counts rows Hv).
  eexists _, _, _. split; [done|].
  assert (Hflat : Forall validCell (concat rows)).
  { apply Forall_concat. exact Hv. }
  destruct (emptyIn_filledIn_total _ Hflat) as (H1 & H2 & H3).
  assert (Hc : concat (resolveRows rows) = resolve <$> concat rows).
  { unfold resolveRows, resolveRow. clear.
    induction rows as [|row rows IH]; [done|].
    cbn. by rewrite fmap_app, IH. }
  rewrite Hc. split; [exact H1|]. by split.
Qed.

Lemma lifeOn_counters_witness :
  valid blinkerMarked ∧
  ∃ rows' empty filled,
    lifeOnRows blinkerMarked = Ok (rows', empty, filled) ∧
    empty + filled = Z.of_nat (cellCount blinkerMarked).
Proof.
  assert (Hv : valid blinkerMarked).
  { unfold valid. apply (bool_decide_unpack _). vm_compute. exact I. }
  split; [exact Hv|].
  destruct (lifeOn_counters blinkerMarked Hv)
    as (rows' & e & f & Hl & Hsum & _).
  exists rows', e, f. split; [exact Hl | exact Hsum].
Defined.

Lemma lifeOnRow_panic (rows : list Row) (i : nat) (row : Row) (empty filled : Z) :
  rows !! i = Some row → Exists (fun c => ¬ validCell c) row →
  ∃ p, lifeOnRow (Z.of_nat i) row empty filled = Panic p ∧
       lifeOnPanic rows p.
Proof.
  intros Hi Hex. unfold lifeOnRow.
  apply (rangeLoop_panic_inv _
    (fun (k : nat) (s : Row * Z * Z) => length s.1.1 = length row)
    _ (fun c => ¬ validCell c)); [done| |done].
  intros k c [[r e] f] Hk Hlen. cbn in Hlen.
  pose proof (lookup_lt_Some _ _ _ Hk) as Hkl.
  rewrite Z.add_0_l, !store_insert by lia. rewrite !bind_Ok.
  destruct (decide (validCell c)) as [Hc | Hc].
  - left. split; [tauto|].
    destruct ((c =? CellEmpty) || (c =? CellDying)) eqn:E0;
      [eexists; split; [done|]; cbn; by rewrite length_insert|].
    destruct ((c =? CellBorn) || (c =? CellAlive)) eqn:E1;
      [eexists; split; [done|]; cbn; by rewrite length_insert|].
    unfold validCell, CellBorn, CellAlive, CellEmpty, CellDying in *.
    apply orb_false_iff in E0 as [E3 E4]. apply orb_false_iff in E1 as [E1 E2].
    apply Z.eqb_neq in E1, E2, E3, E4. lia.
  - right. exists (WrongCellLifeOn c (Z.of_nat k) (Z.of_nat i)). split.
    + assert (Hn : ∀ v, validCell v → (c =? v) = false).
      { intros v Hv. apply Z.eqb_neq. by intros ->. }
      rewrite (Hn CellEmpty), (Hn CellDying), (Hn CellBorn), (Hn CellAlive)
        by (by compute). done.
    + exists c, k, i, row. by repeat split.
Qed.

(** X11.  On a board of any shape that holds a cell outside the four
    cell values, the resolve sub-phase does not return: it panics with its
    own message, which carries the value of such a cell, then its column
    and then its row. *)
Theorem lifeOn_panics_on_invalid (g : Game) :
  let rows := Rows (GBoard g) in
  Exists (Exists (fun c => ¬ validCell c)) rows →
  ∃ c (j i : nat) row,
    lifeOn g = Panic (WrongCellLifeOn c (Z.of_nat j) (Z.of_nat i)) ∧
    rows !! i = Some row ∧ row !! j = Some c ∧ ¬ validCell c.
Proof.
  intros rows Hex. unfold lifeOn. fold rows.
  assert (Hp : ∃ p, lifeOnRows rows = Panic p ∧ lifeOnPanic rows p).
  { unfold lifeOnRows.
    apply (rangeLoop_panic_inv _
      (fun (k : nat) (s : list Row * Z * Z) => length s.1.1 = length rows)
      _ (Exists (fun c => ¬ validCell c))); [done| |done].
    intros k row [[rs e] f] Hk Hlen. cbn in Hlen.
    pose proof (lookup_lt_Some _ _ _ Hk) as Hkl. rewrite Z.add_0_l.
    destruct (Forall_Exists_dec validCell (fun c => ¬ validCell c)
                validCell_dec row) as [Hgood | Hbad].
    - left. split.
      + intros HE. apply Exists_exists in HE as (c & Hc & Hn).
        apply Hn. rewrite Forall_forall in Hgood. by apply Hgood.
      + rewrite (lifeOnRow_counts _ row e f Hgood), bind_Ok.
        rewrite store_insert by lia. rewrite bind_Ok.
        eexists. split; [done|]. cbn. by rewrite length_insert.
    - right. destruct (lifeOnRow_panic rows k row e f Hk Hbad) as (p & -> & Hp).
      exists p. by split. }
  destruct Hp as (p & -> & c & j & i & row & -> & Hi & Hj & Hc).
  by exists c, j, i, row.
Qed.

Lemma lifeOn_panics_on_invalid_witness :
  Exists (Exists (fun c => ¬ validCell c)) [ [0; 1; 3]; [2; 0; 7] ] ∧
  ∃ c (j i : nat) row,
    lifeOn (gameOf [ [0; 1; 3]; [2; 0; 7] ] false)
    = Panic (WrongCellLifeOn c (Z.of_nat j) (Z.of_nat i)) ∧
    [ [0; 1; 3]; [2; 0; 7] ] !! i = Some row ∧ row !! j = Some c ∧
    ¬ validCell c.
Proof.
  assert (Hex : Exists (Exists (fun c => ¬ validCell c))
                  [ [0; 1; 3]; [2; 0; 7] ]).
  { apply Exists_cons_tl, Exists_cons_hd, Exists_cons_tl, Exists_cons_tl,
      Exists_cons_hd. unfold validCell. lia. }
  split; [exact Hex|].
  exact (lifeOn_panics_on_invalid (gameOf [ [0; 1; 3]; [2; 0; 7] ] false) Hex).
Defined.

(** ** Further properties: the mark sub-phase and the generations *)

(** Two boards of the same rectangular shape with the same cells are
    equal. *)
Lemma rect_ext (W : nat) (a b : list Row) :
  length a = length b → rect W a → rect W b →
  (∀ i j : nat, (i < length a)%nat → (j < W)%nat →
     cellAt a (Z.of_nat i) (Z.of_nat j) = cellAt b (Z.of_nat i) (Z.of_nat j)) →
  a = b.
Proof.
  intros Hlen Ha Hb Hcells. apply list_eq. intros i.
  destruct (decide (i < length a)%nat) as [Hi | Hi].
  - destruct (lookup_lt_is_Some_2 a i Hi) as [ra Hra].
    destruct (lookup_lt_is_Some_2 b i ltac:(lia)) as [rb Hrb].
    rewrite Hra, Hrb. f_equal.
    pose proof (rect_lookup _ _ _ _ Ha Hra) as Hla.
    pose proof (rect_lookup _ _ _ _ Hb Hrb) as Hlb.
    apply list_eq. intros j.
    destruct (decide (j < W)%nat) as [Hj | Hj].
    + specialize (Hcells i j Hi Hj).
      rewrite (cellAt_lookup _ _ _ _ Hra), (cellAt_lookup _ _ _ _ Hrb) in Hcells.
      destruct (lookup_lt_is_Some_2 ra j ltac:(lia)) as [x Hx].
      destruct (lookup_lt_is_Some_2 rb j ltac:(lia)) as [y Hy].
      rewrite (getZ_lookup _ _ _ Hx), (getZ_lookup _ _ _ Hy) in Hcells.
      by rewrite Hx, Hy, Hcells.
    + by rewrite !lookup_ge_None_2 by lia.
  - by rewrite !lookup_ge_None_2 by lia.
Qed.

Lemma lifeStep_length (rows : list Row) : length (lifeStep rows) = length rows.
Proof. unfold lifeStep. by rewrite length_imap. Qed.

Lemma lifeStep_rect (W : nat) (rows : list Row) :
  rect W rows → rect W (lifeStep rows).
Proof.
  intros Hr. apply Forall_lookup. intros i row' Hi.
  unfold lifeStep in Hi. rewrite list_lookup_imap in Hi.
  destruct (rows !! i) as [row|] eqn:Hrow; [|done].
  injection Hi as <-. rewrite length_imap. by eapply rect_lookup.
Qed.

Lemma lifeNext_steady (c : Cell) (n : Z) : steadyCell (lifeNext c n).
Proof.
  unfold lifeNext. destruct (c =? CellAlive);
    [destruct (_ || _) | destruct (n =? 3)]; (by left) || (by right).
Qed.

Lemma lifeStep_steady (rows : list Row) : steady (lifeStep rows).
Proof.
  apply Forall_lookup. intros i row' Hi.
  unfold lifeStep in Hi. rewrite list_lookup_imap in Hi.
  destruct (rows !! i) as [row|] eqn:Hrow; [|done].
  injection Hi as <-. apply Forall_lookup. intros j c Hj.
  rewrite list_lookup_imap in Hj.
  destruct (row !! j) as [c0|]; [|done].
  injection Hj as <-. apply lifeNext_steady.
Qed.

Lemma cellAt_lifeStep (W : nat) (rows : list Row) (i j : nat) :
  rect W rows → (i < length rows)%nat → (j < W)%nat →
  cellAt (lifeStep rows) (Z.of_nat i) (Z.of_nat j)
  = lifeNext (cellAt rows (Z.of_nat i) (Z.of_nat j))
      (specNaiveCount (len rows) (Z.of_nat W) rows (Z.of_nat i) (Z.of_nat j)).
Proof.
  intros Hr Hi Hj.
  destruct (lookup_lt_is_Some_2 rows i Hi) as [row Hrow].
  pose proof (rect_lookup _ _ _ _ Hr Hrow) as Hl.
  destruct (lookup_lt_is_Some_2 row j ltac:(lia)) as [c Hc].
  rewrite (cellAt_lookup _ _ _ _ Hrow), (getZ_lookup _ _ _ Hc).
  unfold cellAt, getZ, lifeStep.
  rewrite !Nat2Z.id, list_lookup_imap, Hrow. cbn.
  rewrite list_lookup_imap, Hc. cbn. unfold len. by rewrite Hl.
Qed.

Lemma resolve_fate (c n : Z) :
  steadyCell c → resolve (fate c n) = lifeNext c n.
Proof.
  intros [-> | ->]; unfold fate, lifeNext; cbn.
  - by destruct (n =? 3).
  - destruct (Z.ltb_spec n 2), (Z.gtb_spec n 3),
      (Z.eqb_spec n 2), (Z.eqb_spec n 3); (done || lia).
Qed.

Lemma unmark_fate (c n : Z) : steadyCell c → unmark (fate c n) = c.
Proof.
  intros [-> | ->]; unfold fate, unmark; cbn.
  - by destruct (n =? 3).
  - by destruct (_ || _).
Qed.

Lemma feed_then_lifeOn (W : nat) (rows : list Row) :
  rect W rows → (0 < length rows)%nat → steady rows →
  ∃ marked empty filled,
    feedRows rows = Ok marked ∧
    length marked = length rows ∧ rect W marked ∧
    lifeOnRows marked = Ok (lifeStep rows, empty, filled).
Proof.
  intros Hr Hpos Hs.
  destruct (feedRows_spec W rows Hr Hpos Hs) as (m & Hfeed & Hlen & Hrm & Hc).
  destruct (feedRows_valid W rows Hr Hpos Hs) as (m' & Hfeed' & _ & _ & Hv).
  rewrite Hfeed in Hfeed'. injection Hfeed' as <-.
  exists m, (emptyIn (concat m)), (filledIn (concat m)).
  split; [done|]. split; [done|]. split; [done|].
  rewrite (lifeOnRows_counts m Hv). do 3 f_equal.
  apply (rect_ext W).
  - by rewrite resolveRows_length, lifeStep_length.
  - by apply resolve_rows_rect.
  - by apply lifeStep_rect.
  - intros i j Hi Hj. rewrite resolveRows_length, Hlen in Hi.
    rewrite cellAt_resolveRows, (Hc i j Hi Hj), (cellAt_lifeStep W) by done.
    rewrite (countAt_naive (len rows)) by (done || unfold len; lia).
    apply resolve_fate, steady_cellAt, Hs.
Qed.

(** X12.  A mark sub-phase followed by a resolve sub-phase is one
    generation of Life on the torus: on every board of [H >= 1] rows of
    [W] cells, all [Empty] or [Alive], [feed] and then [lifeOn] return,
    and the board they leave is [lifeStep] of the board they found (a
    live cell with 2 or 3 live neighbours lives, an empty cell with
    exactly 3 comes alive, every other cell is empty). *)
Theorem mark_resolve_is_life_generation (W : nat) (g : Game) :
  let rows := Rows (GBoard g) in
  rect W rows → (0 < length rows)%nat → steady rows →
  ∃ g1 g2,
    feed g = Ok g1 ∧ lifeOn g1 = Ok g2 ∧
    Rows (GBoard g2) = lifeStep rows ∧
    ∀ i j : nat, (i < length rows)%nat → (j < W)%nat →
      cellAt (Rows (GBoard g2)) (Z.of_nat i) (Z.of_nat j)
      = lifeNext (cellAt rows (Z.of_nat i) (Z.of_nat j))
          (specNaiveCount (len rows) (Z.of_nat W) rows
             (Z.of_nat i) (Z.of_nat j)).
Proof.
  intros rows Hr Hpos Hs.
  destruct (feed_then_lifeOn W rows Hr Hpos Hs)
    as (m & e & f & Hfeed & _ & _ & Hlife).
  unfold feed. fold rows. rewrite Hfeed, bind_Ok.
  eexists _, _. split; [done|]. unfold lifeOn. cbn [GBoard Rows].
  rewrite Hlife, bind_Ok. split; [done|]. cbn [GBoard Rows].
  split; [done|]. intros i j Hi Hj. by apply cellAt_lifeStep.
Qed.

Lemma mark_resolve_is_life_generation_witness :
  rect 5 blinker ∧ (0 < length blinker)%nat ∧ steady blinker ∧
  ∃ g1 g2,
    feed (gameOf blinker false) = Ok g1 ∧ lifeOn g1 = Ok g2 ∧
    Rows (GBoard g2) = lifeStep blinker.
Proof.
  assert (Hr : rect 5 blinker) by (apply (bool_decide_unpack _); vm_compute; exact I).
  assert (Hp : (0 < length blinker)%nat) by (cbn; lia).
  assert (Hs : steady blinker) by (apply (bool_decide_unpack _); vm_compute; exact I).
  split; [exact Hr|]. split; [exact Hp|]. split; [exact Hs|].
  destruct (mark_resolve_is_life_generation 5 (gameOf blinker false) Hr Hp Hs)
    as (g1 & g2 & H1 & H2 & H3 & _).
  exists g1, g2. split; [exact H1|]. split; [exact H2 | exact H3].
Defined.

(** X13.  The mark sub-phase keeps the current generation readable: on
    every board of [H >= 1] rows of [W] cells, all [Empty] or [Alive],
    the board that [feed] leaves has the same shape, each of its cells is
    the old cell, or [Born] where the old cell was [Empty], or [Dying]
    where it was [Alive], and reading [Born] as [Empty] and [Dying] as
    [Alive] gives back the board that [feed] found. *)
Theorem feed_keeps_generation (W : nat) (g : Game) :
  let rows := Rows (GBoard g) in
  rect W rows → (0 < length rows)%nat → steady rows →
  ∃ g', feed g = Ok g' ∧
    length (Rows (GBoard g')) = length rows ∧ rect W (Rows (GBoard g')) ∧
    (fun row : Row => unmark <$> row) <$> Rows (GBoard g') = rows ∧
    ∀ i j : nat, (i < length rows)%nat → (j < W)%nat →
      let c := cellAt rows (Z.of_nat i) (Z.of_nat j) in
      let c' := cellAt (Rows (GBoard g')) (Z.of_nat i) (Z.of_nat j) in
      c' = c ∨ (c = CellEmpty ∧ c' = CellBorn) ∨ (c = CellAlive ∧ c' = CellDying).
Proof.
  intros rows Hr Hpos Hs. unfold feed. fold rows.
  destruct (feedRows_spec W rows Hr Hpos Hs) as (m & -> & Hlen & Hrm & Hc).
  rewrite bind_Ok. eexists. split; [done|]. cbn [GBoard Rows].
  split; [done|]. split; [done|]. split.
  - apply (rect_ext W).
    + by rewrite length_fmap.
    + apply Forall_fmap. eapply Forall_impl; [exact Hrm|].
      intros row Hl. unfold compose. by rewrite length_fmap.
    + done.
    + intros i j Hi Hj. rewrite length_fmap, Hlen in Hi.
      rewrite <- (unmark_fate (cellAt rows (Z.of_nat i) (Z.of_nat j))
                    (countAt (Z.of_nat W) rows (Z.of_nat i) (Z.of_nat j)))
        by apply steady_cellAt, Hs.
      rewrite <- (Hc i j Hi Hj).
      unfold cellAt, getZ. rewrite list_lookup_fmap.
      destruct (m !! Z.to_nat (Z.of_nat i)) as [row|] eqn:Hrow; cbn.
      * rewrite list_lookup_fmap.
        destruct (row !! Z.to_nat (Z.of_nat j)) as [c|] eqn:Hcell; [done|].
        exfalso. apply lookup_ge_None_1 in Hcell.
        rewrite (rect_lookup _ _ _ _ Hrm Hrow) in Hcell. lia.
      * exfalso. apply lookup_ge_None_1 in Hrow. lia.
  - intros i j Hi Hj. cbv zeta. rewrite (Hc i j Hi Hj). unfold fate.
    destruct (steady_cellAt rows (Z.of_nat i) (Z.of_nat j) Hs) as [-> | ->]; cbn.
    + destruct (_ =? 3); [right; left | left]; done.
    + destruct (_ || _); [right; right | left]; done.
Qed.

Lemma feed_keeps_generation_witness :
  rect 5 blinker ∧ (0 < length blinker)%nat ∧ steady blinker ∧
  ∃ g', feed (gameOf blinker false) = Ok g' ∧
    (fun row : Row => unmark <$> row) <$> Rows (GBoard g') = blinker.
Proof.
  assert (Hr : rect 5 blinker) by (apply (bool_decide_unpack _); vm_compute; exact I).
  assert (Hp : (0 < length blinker)%nat) by (cbn; lia).
  assert (Hs : steady blinker) by (apply (bool_decide_unpack _); vm_compute; exact I).
  split; [exact Hr|]. split; [exact Hp|]. split; [exact Hs|].
  destruct (feed_keeps_generation 5 (gameOf blinker false) Hr Hp Hs)
    as (g' & H1 & _ & _ & H2 & _).
  exists g'. split; [exact H1 | exact H2].
Defined.

Lemma allEmpty_cellAt (rows : list Row) (i j : Z) :
  Forall (Forall (fun c => c = CellEmpty)) rows → cellAt rows i j = CellEmpty.
Proof.
  intros He. unfold cellAt, getZ.
  destruct (rows !! Z.to_nat i) as [row|] eqn:Hi; [|done].
  cbn. destruct (row !! Z.to_nat j) as [c|] eqn:Hj; [|done].
  cbn. pose proof (proj1 (Forall_lookup _ _) He _ _ Hi) as Hrow.
  exact (proj1 (Forall_lookup _ _) Hrow _ _ Hj).
Qed.

Lemma allEmpty_steady (rows : list Row) :
  Forall (Forall (fun c => c = CellEmpty)) rows → steady rows.
Proof.
  intros He. eapply Forall_impl; [exact He|]. intros row Hrow.
  eapply Forall_impl; [exact Hrow|]. intros c ->. by left.
Qed.

Lemma feedRows_allEmpty (W : nat) (rows : list Row) :
  rect W rows → (0 < length rows)%nat →
  Forall (Forall (fun c => c = CellEmpty)) rows →
  feedRows rows = Ok rows.
Proof.
  intros Hr Hpos He. pose proof (allEmpty_steady rows He) as Hs.
  destruct (feedRows_spec W rows Hr Hpos Hs) as (m & -> & Hlen & Hrm & Hc).
  f_equal. apply (rect_ext W); [done..|].
  intros i j Hi Hj. rewrite Hlen in Hi. rewrite (Hc i j Hi Hj).
  rewrite (countAt_naive (len rows)) by (done || unfold len; lia).
  unfold specNaiveCount. cbv zeta. by rewrite !(allEmpty_cellAt rows _ _ He).
Qed.

(** X14.  An empty board stays empty: on a board of [H >= 1] rows of [W]
    cells that are all [Empty], a run of any number of ticks, whatever
    the keys and the flags, returns and leaves the board as it was. *)
Theorem empty_board_stays_empty (W : nat) (ks : list Keys) (g : Game) :
  let rows := Rows (GBoard g) in
  rect W rows → (0 < length rows)%nat →
  Forall (Forall (fun c => c = CellEmpty)) rows →
  ∃ g', run g ks = Ok g' ∧ Rows (GBoard g') = rows.
Proof.
  intros rows Hr Hpos He. subst rows.
  remember (Rows (GBoard g)) as rows eqn:Hrows.
  revert g Hrows. induction ks as [|k ks IH]; intros g Hrows.
  - by exists g.
  - assert (HU : ∃ g1, Update g k = Ok g1 ∧ Rows (GBoard g1) = rows).
    { rewrite Update_eq. cbv zeta.
      destruct (processInput_frame g k) as [Hb Hf].
      destruct (tickPhase g k) as [[|]|].
      - unfold feed. cbn [GBoard]. rewrite Hb, <- Hrows.
        rewrite (feedRows_allEmpty W rows Hr Hpos He), bind_Ok. by eexists.
      - rewrite lifeOn_resolve;
          cbn [GBoard]; rewrite Hb, <- Hrows;
          [|by apply steady_valid, allEmpty_steady].
        eexists. split; [done|]. cbn [GBoard Rows].
        by apply resolve_rows_id, allEmpty_steady.
      - eexists. split; [done|]. by rewrite Hb. }
    destruct HU as (g1 & HU & H1).
    destruct (IH g1 (eq_sym H1)) as (g' & Hrun & Hg').
    exists g'. cbn [run]. by rewrite HU, bind_Ok.
Qed.

Lemma empty_board_stays_empty_witness :
  ∃ g', run (gameOf (emptyRows 3 2) true)
          [noKeys; mkKeys true false false; noKeys; mkKeys true false false;
           noKeys] = Ok g' ∧
    Rows (GBoard g') = emptyRows 3 2.
Proof.
  apply (empty_board_stays_empty 3 _ (gameOf (emptyRows 3 2) true)).
  - apply (bool_decide_unpack _). vm_compute. exact I.
  - vm_compute. lia.
  - vm_compute. repeat constructor.
Defined.

(** One mark tick and one resolve tick, without a pause toggle. *)
Lemma mark_resolve_ticks (W H : nat) (g : Game) (k1 k2 : Keys) :
  tickInv W H g → (0 < H)%nat →
  FeedPhase g = true → Paused g = false →
  KeySpace k1 = false → KeySpace k2 = false →
  ∃ g1 g2, Update g k1 = Ok g1 ∧ Update g1 k2 = Ok g2 ∧
    tickInv W H g2 ∧ FeedPhase g2 = true ∧ Paused g2 = false ∧
    Rows (GBoard g2) = lifeStep (Rows (GBoard g)).
Proof.
  intros (Hlen & Hr & Hcells) Hpos Hf Hp Hk1 Hk2. rewrite Hf in Hcells.
  destruct (feed_then_lifeOn W _ Hr ltac:(lia) Hcells)
    as (m & e & f & Hfeed & _ & _ & Hlife).
  set (g1 := mkGame (mkBoard m) false false (Speed (processInput g k1))).
  set (g2 := mkGame (mkBoard (lifeStep (Rows (GBoard g)))) true false
                    (Speed (processInput g1 k2))).
  exists g1, g2. split; [|split; [|split]].
  - rewrite (Update_unpaused_eq g k1 Hp Hk1), Hf. unfold feed.
    cbn [GBoard negb FeedPhase Paused Speed]. by rewrite Hfeed, bind_Ok.
  - rewrite (Update_unpaused_eq g1 k2 eq_refl Hk2). unfold lifeOn.
    cbn [g1 GBoard Rows negb FeedPhase Paused Speed].
    by rewrite Hlife, bind_Ok.
  - unfold tickInv. cbn.
    split; [by rewrite lifeStep_length|].
    split; [by apply lifeStep_rect | apply lifeStep_steady].
  - done.
Qed.

Lemma generations_run (W H : nat) (n : nat) :
  ∀ (ks : list Keys) (g : Game),
    tickInv W H g → (0 < H)%nat →
    FeedPhase g = true → Paused g = false →
    Forall (fun k => KeySpace k = false) ks → length ks = (2 * n)%nat →
    ∃ g', run g ks = Ok g' ∧
      Rows (GBoard g') = Nat.iter n lifeStep (Rows (GBoard g)).
Proof.
  induction n as [|n IH]; intros ks g Hinv Hpos Hf Hp Hks Hlen.
  - destruct ks; [|done]. by exists g.
  - destruct ks as [|k1 [|k2 ks]]; [done | cbn in Hlen; lia |].
    apply Forall_cons in Hks as [Hk1 Hks].
    apply Forall_cons in Hks as [Hk2 Hks].
    destruct (mark_resolve_ticks W H g k1 k2 Hinv Hpos Hf Hp Hk1 Hk2)
      as (g1 & g2 & HU1 & HU2 & Hinv2 & Hf2 & Hp2 & Hrows2).
    destruct (IH ks g2 Hinv2 Hpos Hf2 Hp2 Hks ltac:(cbn in Hlen; lia))
      as (g' & Hrun & Hg').
    exists g'. cbn [run]. rewrite HU1, bind_Ok, HU2, bind_Ok.
    split; [done|]. by rewrite Hg', Hrows2, Nat.iter_succ_r.
Qed.

(** X15.  The game computes Life: for the sizes at which [NewGame]
    returns with a board that has rows (a width that is not negative, at
    least one row, both within the length check of [make]), its first
    tick resolves the random fill, and from then on every pair of ticks
    is one generation.  After [1 + 2 n] ticks that
    never toggle pause the board is generation [n] of the resolved
    initial board. *)
Theorem game_computes_life
  (rnd : Rand) (nColumns nRows : Z) (n : nat) (ks : list Keys) :
  0 <= nColumns → 0 < nRows →
  sizeofCell * nColumns <= maxAlloc → sizeofRow * nRows <= maxAlloc →
  Forall (fun k => KeySpace k = false) ks → length ks = (1 + 2 * n)%nat →
  ∃ g0 rnd' g,
    NewGame rnd nColumns nRows = Ok (g0, rnd') ∧
    run g0 ks = Ok g ∧
    Rows (GBoard g) = Nat.iter n lifeStep (resolveRows (Rows (GBoard g0))).
Proof.
  intros Hc Hr HcA HrA Hks Hlen.
  destruct (NewGame_returns rnd nColumns nRows ltac:(lia) HrA ltac:(by right))
    as (g0 & rnd' & HN & Hf0 & Hp0 & _ & Hinv).
  destruct ks as [|k ks]; [done|].
  apply Forall_cons in Hks as [Hk Hks].
  pose proof Hinv as (Hl0 & Hr0 & Hv0). rewrite Hf0 in Hv0.
  assert (HU : Update g0 k
               = Ok (mkGame (mkBoard (resolveRows (Rows (GBoard g0))))
                            true false (Speed (processInput g0 k)))).
  { rewrite (Update_unpaused_eq g0 k Hp0 Hk), Hf0.
    by rewrite lifeOn_resolve by done. }
  pose proof (Update_tickInv _ _ g0 _ k Hinv HU) as Hinv1.
  destruct (generations_run _ _ n ks _ Hinv1 ltac:(lia) eq_refl eq_refl Hks
              ltac:(cbn in Hlen; lia)) as (g & Hrun & Hg).
  exists g0, rnd', g. split; [done|]. cbn [run]. rewrite HU, bind_Ok.
  by split.
Qed.

Lemma game_computes_life_witness :
  ∃ g0 rnd' g,
    NewGame twos 3 3 = Ok (g0, rnd') ∧
    run g0 [noKeys; noKeys; noKeys; noKeys; noKeys] = Ok g ∧
    Rows (GBoard g)
    = Nat.iter 2 lifeStep (resolveRows (Rows (GBoard g0))).
Proof.
  exact (game_computes_life twos 3 3 2
           [noKeys; noKeys; noKeys; noKeys; noKeys]
           ltac:(lia) ltac:(lia) ltac:(vm_compute; discriminate) ltac:(vm_compute; discriminate)
           ltac:(repeat constructor) eq_refl).
Defined.

(** ** Further properties: the random fill *)

Lemma toCell_drawn (x : Z) : toCell (x mod len Colors) = x mod 4.
Proof.
  change (len Colors) with 4. unfold toCell.
  pose proof (Z.mod_pos_bound x 4 ltac:(lia)). rewrite Z.mod_small; lia.
Qed.

Lemma fillRow_draws (W : nat) (d : nat → Z) (p0 : nat) (row : Row) :
  length row = W →
  ∃ row',
    rangeLoop (fun j (_ : Cell) '(row, rnd) =>
        let '(x, rnd) := Intn rnd (len Colors) in
        row ← store row j (toCell x);
        Ok (row, rnd)) 0 row (row, mkRand d p0)
    = Ok (row', mkRand d (p0 + W)) ∧
    length row' = W ∧
    ∀ j : nat, (j < W)%nat → row' !! j = Some (drawnCell d (p0 + j)).
Proof.
  intros Hrow.
  loop_inv (fun (n : nat) (s : Row * Rand) =>
    length s.1 = W ∧ s.2 = mkRand d (p0 + n) ∧
    ∀ j : nat, (j < n)%nat → s.1 !! j = Some (drawnCell d (p0 + j))).
  - intros ([row' g'] & Hl & Hlen & Hg & Hcells). cbn in Hlen, Hg, Hcells.
    subst g'. rewrite Hrow in Hl, Hcells. by exists row'.
  - cbn. split; [done|]. split; [by rewrite Nat.add_0_r|].
    intros j Hj. lia.
  - intros n c [r g'] Hn (Hl' & Hg & Hcells). cbn in Hl', Hg, Hcells. subst g'.
    pose proof (lookup_lt_Some _ _ _ Hn) as Hnl.
    unfold Intn. cbn [draws pos]. rewrite toCell_drawn.
    rewrite Z.add_0_l, store_insert by lia. rewrite bind_Ok.
    eexists. split; [done|]. cbn. split; [by rewrite length_insert|].
    split; [f_equal; lia|].
    intros j Hj. destruct (decide (j = n)) as [->|Hne].
    + by rewrite list_lookup_insert_eq by lia.
    + rewrite list_lookup_insert_ne by done. apply Hcells. lia.
Qed.

Lemma RandomFill_exact (W : nat) (rows : list Row) (rnd : Rand) :
  rect W rows →
  ∃ rows',
    RandomFill (mkBoard rows) rnd
    = Ok (mkBoard rows', mkRand (draws rnd) (pos rnd + length rows * W)) ∧
    length rows' = length rows ∧ rect W rows' ∧
    ∀ i j : nat, (i < length rows)%nat → (j < W)%nat →
      cellAt rows' (Z.of_nat i) (Z.of_nat j)
      = draws rnd (pos rnd + i * W + j) mod 4.
Proof.
  intros Hr. unfold RandomFill. cbn [Rows].
  loop_inv (fun (k : nat) (s : list Row * Rand) =>
    length s.1 = length rows ∧
    s.2 = mkRand (draws rnd) (pos rnd + k * W) ∧
    ∀ m : nat, (m < k)%nat →
      ∃ r, s.1 !! m = Some r ∧ length r = W ∧
        ∀ j : nat, (j < W)%nat →
          r !! j = Some (drawnCell (draws rnd) (pos rnd + m * W + j))).
  - intros ([rows' g'] & -> & Hlen & Hg & Hall). cbn in Hlen, Hg, Hall.
    subst g'. rewrite bind_Ok. exists rows'.
    split; [done|]. split; [done|].
    assert (Hrect : rect W rows').
    { apply Forall_lookup. intros m r Hm.
      destruct (Hall m) as (r' & Hm' & Hl & _).
      { apply lookup_lt_Some in Hm. lia. }
      congruence. }
    split; [done|].
    intros i j Hi Hj. destruct (Hall i Hi) as (r & Hm & _ & Hc).
    rewrite (cellAt_lookup _ _ _ _ Hm). apply getZ_lookup. by apply Hc.
  - cbn. split; [done|]. split; [destruct rnd; cbn; f_equal; lia|].
    intros m Hm. lia.
  - intros k row [rs g'] Hk (Hlen & Hg & Hall). cbn in Hlen, Hg, Hall. subst g'.
    pose proof (lookup_lt_Some _ _ _ Hk) as Hkl.
    pose proof (rect_lookup _ _ _ _ Hr Hk) as Hrow.
    destruct (fillRow_draws W (draws rnd) (pos rnd + k * W) row Hrow)
      as (row' & -> & Hl' & Hcells).
    rewrite bind_Ok, Z.add_0_l, store_insert by lia. rewrite bind_Ok.
    eexists. split; [done|]. cbn. split; [by rewrite length_insert|].
    split; [f_equal; lia|].
    intros m Hm. destruct (decide (m = k)) as [->|Hne].
    + exists row'. split; [by rewrite list_lookup_insert_eq by lia|].
      by split.
    + destruct (Hall m ltac:(lia)) as (r & Hm' & Hrest).
      exists r. split; [|done]. by rewrite list_lookup_insert_ne by done.
Qed.

(** X16.  [RandomFill] on a board of [H] rows of [W] cells returns, keeps
    the shape, takes exactly [H * W] draws from the generator and writes
    them row by row, left to right: cell [(i, j)] is draw number
    [i * W + j] (counted from the generator's position) reduced modulo 4,
    so it is one of the four cell values, and nothing of what the board
    held before is left. *)
Theorem RandomFill_draws (W : nat) (rows : list Row) (rnd : Rand) :
  rect W rows →
  ∃ rows',
    RandomFill (mkBoard rows) rnd
    = Ok (mkBoard rows', mkRand (draws rnd) (pos rnd + length rows * W)) ∧
    length rows' = length rows ∧ rect W rows' ∧ valid rows' ∧
    ∀ i j : nat, (i < length rows)%nat → (j < W)%nat →
      cellAt rows' (Z.of_nat i) (Z.of_nat j)
      = draws rnd (pos rnd + i * W + j) mod 4.
Proof.
  intros Hr.
  destruct (RandomFill_exact W rows rnd Hr) as (rows' & Hfill & Hlen & Hr' & Hc).
  exists rows'. split; [done|]. split; [done|]. split; [done|].
  split; [|done].
  apply Forall_lookup. intros i row Hi. apply Forall_lookup. intros j c Hj.
  pose proof (lookup_lt_Some _ _ _ Hi) as Hil.
  pose proof (lookup_lt_Some _ _ _ Hj) as Hjl.
  rewrite (rect_lookup _ _ _ _ Hr' Hi) in Hjl.
  specialize (Hc i j ltac:(lia) Hjl).
  rewrite (cellAt_lookup _ _ _ _ Hi), (getZ_lookup _ _ _ Hj) in Hc.
  rewrite Hc. unfold validCell.
  pose proof (Z.mod_pos_bound (draws rnd (pos rnd + i * W + j)) 4 ltac:(lia)).
  lia.
Qed.

Lemma RandomFill_draws_witness :
  rect 3 (emptyRows 3 2) ∧
  ∃ rows',
    RandomFill (mkBoard (emptyRows 3 2)) twos
    = Ok (mkBoard rows', mkRand (draws twos) (pos twos + 2 * 3)) ∧
    length rows' = 2%nat ∧ valid rows'.
Proof.
  assert (Hr : rect 3 (emptyRows 3 2))
    by (apply (bool_decide_unpack _); vm_compute; exact I).
  split; [exact Hr|].
  destruct (RandomFill_draws 3 (emptyRows 3 2) twos Hr)
    as (rows' & Hfill & Hlen & _ & Hv & _).
  exists rows'. split; [exact Hfill|]. split; [exact Hlen | exact Hv].
Defined.

(** ** Further properties: the boards on which [feed] returns *)

(** What a loop that returns keeps. *)
Lemma rangeLoop_Ok_inv {A St} (body : Z → A → St → res St) (I : St → Prop)
  (l : list A) :
  (∀ j a s s', body j a s = Ok s' → I s → I s') →
  ∀ j0 s s', I s → rangeLoop body j0 l s = Ok s' → I s'.
Proof.
  intros Hstep. induction l as [|a l IH]; intros j0 s s' Hs Hl.
  - by injection Hl as <-.
  - cbn [rangeLoop] in Hl. apply bind_Ok_inv in Hl as (s1 & Hb & Hl).
    eapply IH; [|exact Hl]. by eapply Hstep.
Qed.

(** A loop whose body panics at index [k0] does not return. *)
Lemma rangeLoop_panic_at {A St} (body : Z → A → St → res St) (I : St → Prop)
  (l : list A) :
  (∀ j a s s', body j a s = Ok s' → I s → I s') →
  ∀ (k0 : nat) j0 s,
    (∀ a t, l !! k0 = Some a → I t →
       ∃ p, body (j0 + Z.of_nat k0) a t = Panic p) →
    (k0 < length l)%nat → I s →
    ∃ p, rangeLoop body j0 l s = Panic p.
Proof.
  intros Hstep. induction l as [|a l IH]; intros k0 j0 s Hbad Hk Hs.
  - cbn in Hk. lia.
  - cbn [rangeLoop]. destruct (body j0 a s) as [s1|p] eqn:Hb; [|by exists p].
    rewrite bind_Ok. destruct k0 as [|k0].
    + destruct (Hbad a s eq_refl Hs) as [p Hp].
      rewrite Z.add_0_r in Hp. congruence.
    + apply (IH k0); [|cbn in Hk; lia | by eapply Hstep].
      intros x t Hx Ht.
      replace (j0 + 1 + Z.of_nat k0) with (j0 + Z.of_nat (S k0)) by lia.
      by apply Hbad.
Qed.

Lemma store_Ok_length {A} (l l' : list A) (i : Z) (a : A) :
  store l i a = Ok l' → length l' = length l.
Proof.
  unfold store. destruct (_ || _); [done|].
  intros [= <-]. by rewrite length_insert.
Qed.

Lemma store_out_of_range {A} (l : list A) (i : Z) (a : A) :
  len l <= i → store l i a = Panic IndexOutOfRange.
Proof.
  intros Hi. unfold store.
  destruct (Z.ltb_spec i 0); [done|].
  by destruct (Z.leb_spec (len l) i); [|lia].
Qed.

Lemma index_out_of_range {A} (l : list A) (i : Z) :
  len l <= i → index l i = Panic IndexOutOfRange.
Proof.
  intros Hi. unfold index, len in *.
  destruct (Z.ltb_spec i 0); [done|].
  by rewrite lookup_ge_None_2 by lia.
Qed.

Lemma sumRows_Ok_length (rows : list Row) (i1 i2 : Z) (row tmp tmp' : Row) :
  sumRows rows i1 i2 row tmp = Ok tmp' → length tmp' = length tmp.
Proof.
  unfold sumRows.
  apply (rangeLoop_Ok_inv _ (fun t : Row => length t = length tmp)); [|done].
  intros j cell t t' Hb Ht.
  apply bind_Ok_inv in Hb as (r1 & _ & Hb).
  apply bind_Ok_inv in Hb as (c1 & _ & Hb).
  apply bind_Ok_inv in Hb as (r2 & _ & Hb).
  apply bind_Ok_inv in Hb as (c2 & _ & Hb).
  cbv zeta in Hb. apply store_Ok_length in Hb. congruence.
Qed.

Lemma sumRows_long_row (rows : list Row) (i1 i2 : Z) (row tmp : Row) :
  (length tmp < length row)%nat →
  ∃ p, sumRows rows i1 i2 row tmp = Panic p.
Proof.
  intros Hlong. unfold sumRows.
  apply (rangeLoop_panic_at _ (fun t : Row => length t = length tmp) row)
    with (k0 := length tmp); [| |done|done].
  - intros j cell t t' Hb Ht.
    apply bind_Ok_inv in Hb as (r1 & _ & Hb).
    apply bind_Ok_inv in Hb as (c1 & _ & Hb).
    apply bind_Ok_inv in Hb as (r2 & _ & Hb).
    apply bind_Ok_inv in Hb as (c2 & _ & Hb).
    cbv zeta in Hb. apply store_Ok_length in Hb. congruence.
  - intros cell t _ Ht.
    destruct (index rows i1) as [r1|p]; [|by exists p]. rewrite bind_Ok.
    destruct (index r1 _) as [c1|p]; [|by exists p]. rewrite bind_Ok.
    destruct (index rows i2) as [r2|p]; [|by exists p]. rewrite bind_Ok.
    destruct (index r2 _) as [c2|p]; [|by exists p]. rewrite bind_Ok.
    cbv zeta. rewrite store_out_of_range by (unfold len; lia). by eexists.
Qed.

Lemma sumCols_short_row (row tmp crow : Row) :
  (length row < length tmp)%nat →
  ∃ p, sumCols row tmp crow = Panic p.
Proof.
  intros Hshort. unfold sumCols.
  apply (rangeLoop_panic_at _ (fun _ : Row => True) tmp)
    with (k0 := length row); [done| |done|done].
  intros cnt t _ _. cbv zeta.
  rewrite (index_out_of_range row) by (unfold len; lia).
  repeat match goal with
  | |- context [index tmp ?i] => destruct (index tmp i)
  end; by eexists.
Qed.

(** The counter does not return on a board with a row that is longer or
    shorter than the first one. *)
Lemma neighborCounts_ragged (rows : list Row) (row0 row : Row) (k : nat) :
  rows !! 0%nat = Some row0 → rows !! k = Some row →
  length row ≠ length row0 →
  ∃ p, neighborCounts rows = Panic p.
Proof.
  intros H0 Hk Hne. unfold neighborCounts.
  assert (Hix : index rows 0 = Ok row0) by exact (index_lookup rows 0 row0 H0).
  rewrite Hix, bind_Ok.
  unfold makeLike. rewrite bind_Ok.
  match goal with
  | |- context [rangeLoop ?b ?j ?l ?s] =>
      assert (Hloop : ∃ p, rangeLoop b j l s = Panic p);
      [|by destruct Hloop as (p & ->); exists p]
  end.
  apply (rangeLoop_panic_at _
           (fun s : Row * list Row => length s.1 = length row0) rows)
    with (k0 := k).
  - intros i r [tmp cb] s' Hb Ht. cbn in Ht. cbv zeta in Hb.
    apply bind_Ok_inv in Hb as (tmp' & Hsum & Hb).
    apply bind_Ok_inv in Hb as (crow & _ & Hb).
    apply bind_Ok_inv in Hb as (crow' & _ & [= <-]). cbn.
    apply sumRows_Ok_length in Hsum. congruence.
  - intros r [tmp cb] Hr Ht. cbn in Ht. assert (r = row) as -> by congruence.
    cbv zeta.
    destruct (sumRows rows _ _ row tmp) as [tmp'|p] eqn:Hsum; [|by exists p].
    rewrite bind_Ok. pose proof (sumRows_Ok_length _ _ _ _ _ _ Hsum) as Hl.
    destruct (decide (length row0 < length row)%nat) as [Hlong | Hshort].
    + destruct (sumRows_long_row rows
                  (if 0 + Z.of_nat k - 1 <? 0 then len rows - 1
                   else 0 + Z.of_nat k - 1)
                  (if 0 + Z.of_nat k + 1 >=? len rows then 0
                   else 0 + Z.of_nat k + 1) row tmp ltac:(lia)) as (p & Hp).
      congruence.
    + unfold makeLike. rewrite bind_Ok.
      destruct (sumCols_short_row row tmp' (replicate (length row) 0)
                  ltac:(lia)) as (p & ->).
      by exists p.
  - by eapply lookup_lt_Some.
  - cbn. by rewrite length_replicate.
Qed.

(** X18.  [feed] returns exactly on the boards that have at least one
    row, whose rows all have the same length and whose cells are all
    [Empty] or [Alive]; on every other board (no rows, rows of different
    lengths, a [Born], [Dying] or other cell) it panics. *)
Theorem feed_returns_iff (g : Game) :
  let rows := Rows (GBoard g) in
  (∃ g', feed g = Ok g') ↔
  (rows ≠ [] ∧ (∃ W, rect W rows) ∧ steady rows).
Proof.
  intros rows. split.
  - intros (g' & Hfeed).
    apply feed_Ok_inv in Hfeed as (rows' & Hfeed & _). fold rows in Hfeed.
    assert (Hsteady : steady rows).
    { destruct (decide (steady rows)) as [Hs | Hs]; [done|].
      exfalso. apply not_Forall_Exists in Hs; [|apply _].
      assert (Hex : Exists transientRow rows).
      { eapply Exists_impl; [exact Hs|]. intros row Hrow. cbn in Hrow.
        apply not_Forall_Exists in Hrow; [|apply _]. exact Hrow. }
      destruct (feedRows_never_Ok rows Hex) as (p & Hp). congruence. }
    destruct rows as [|row0 rest] eqn:Hrows; [done|].
    split; [done|]. split; [|done]. exists (length row0).
    destruct (decide (rect (length row0) (row0 :: rest))) as [Hr | Hr]; [done|].
    exfalso. apply not_Forall_Exists in Hr; [|apply _].
    apply Exists_exists in Hr as (row & Hin & Hlen). cbn in Hlen.
    apply list_elem_of_lookup in Hin as (k & Hk).
    destruct (neighborCounts_ragged (row0 :: rest) row0 row k eq_refl Hk Hlen)
      as (p & Hp).
    unfold feedRows in Hfeed. rewrite Hp in Hfeed. discriminate Hfeed.
  - intros (Hne & (W & Hr) & Hs). unfold feed. fold rows.
    destruct (feedRows_spec W rows Hr) as (rows' & -> & _); [|done|by eexists].
    destruct rows; [done | cbn; lia].
Qed.

Lemma feed_returns_iff_witness :
  (∃ g', feed (gameOf blinker false) = Ok g') ∧
  ¬ (∃ g', feed (gameOf [ [0; 1]; [1] ] true) = Ok g').
Proof.
  split.
  - apply (proj2 (feed_returns_iff (gameOf blinker false))).
    split; [discriminate|]. split.
    + exists 5%nat. apply (bool_decide_unpack _). vm_compute. exact I.
    + apply (bool_decide_unpack _). vm_compute. exact I.
  - intros Hret.
    destruct (proj1 (feed_returns_iff (gameOf [ [0; 1]; [1] ] true)) Hret)
      as (_ & (W & Hr) & _).
    apply Forall_cons in Hr as [H1 Hr]. apply Forall_cons in Hr as [H2 _].
    cbn in H1, H2. rewrite <- H1 in H2. discriminate H2.
Defined.
